(** * Text sanitizer: a shallow embedding of [Text_sanitizer/text_sanitizer.py]

    The development follows the layout of the Python module: the built-in
    string operations the module calls ([str.lower], [str.isalpha],
    [str.translate], [bytes.decode]), the dictionary and
    [collections.Counter] operations, the reader, sanitizer, calculator and
    writer classes, and finally [TextProcessor.process] and [main].

    A Python [str] is a sequence of Unicode code points; a code point is a
    natural number here and a string a list of code points.  A [dict] keeps
    its items in insertion order, and the output file lists the statistics
    in that order, so a dictionary is an association list.  A generator is
    the list of what it yields together with the exception that ends it, if
    any; the target file and the standard output are threaded through
    [process] as a [world]. *)

From Stdlib Require Import Ascii String DecimalString.
From Stdlib Require Import List NArith ZArith Bool Lia Permutation.
Import ListNotations.

Local Open Scope N_scope.

(** ** Strings *)

Definition char := N.
Definition str := list char.

(** Code points of an ASCII literal. *)
Definition lit (s : string) : str := map N_of_ascii (list_ascii_of_string s).

Definition TAB : char := 9.
Definition NEWLINE : char := 10.
Definition SPACE : char := 32.
Definition UNDERSCORE : char := 95.
Definition CAPITAL_ALPHA : char := 0x391.
Definition SMALL_ALPHA : char := 0x3B1.
Definition CAPITAL_SIGMA : char := 0x3A3.
Definition FINAL_SIGMA : char := 0x3C2.
Definition SMALL_SIGMA : char := 0x3C3.

(** ** The Unicode character database

    [str.lower] and [str.isalpha] are table driven.  The tables are a
    parameter of the development; [Laws] lists the facts about them that
    the proofs use, and [Fragment.ucd] is the part of the real tables that
    the examples run on. *)

Module Unicode.

Record Database : Type := {
  tolower_full : char -> str;       (* full lowercase mapping *)
  isalpha : char -> bool;           (* general category L* *)
  is_cased : char -> bool;
  is_case_ignorable : char -> bool
}.

Definition ascii_tolower (c : char) : char :=
  if (65 <=? c) && (c <=? 90) then c + 32 else c.

Definition ascii_isalpha (c : char) : bool :=
  ((65 <=? c) && (c <=? 90)) || ((97 <=? c) && (c <=? 122)).

(** Facts of the Unicode tables: the ASCII block; a lowercase mapping
    consists of characters that are their own lowercase mapping; only the
    tab maps to a tab; the two small sigmas. *)
Record Laws (U : Database) : Prop := {
  ascii_lower_law :
    forall c, c < 128 -> tolower_full U c = [ascii_tolower c];
  ascii_alpha_law :
    forall c, c < 128 -> isalpha U c = ascii_isalpha c;
  lower_stable_law :
    forall c d, In d (tolower_full U c) -> tolower_full U d = [d];
  lower_tab_law :
    forall c, In TAB (tolower_full U c) -> c = TAB;
  capital_sigma_law : tolower_full U CAPITAL_SIGMA = [SMALL_SIGMA];
  final_sigma_law : tolower_full U FINAL_SIGMA = [FINAL_SIGMA]
}.

End Unicode.

(** The blocks Basic Latin, the Greek capital and small letters, and the
    two code points U+0130 and U+0307; every other code point is left
    caseless and non-alphabetic. *)
Module Fragment.

Definition latin_capital (c : char) : bool := (65 <=? c) && (c <=? 90).
Definition latin_small (c : char) : bool := (97 <=? c) && (c <=? 122).
Definition greek_capital (c : char) : bool :=
  (0x391 <=? c) && (c <=? 0x3A9) && negb (c =? 0x3A2).
Definition greek_small (c : char) : bool := (0x3B1 <=? c) && (c <=? 0x3C9).

Definition tolower_full (c : char) : str :=
  if latin_capital c || greek_capital c then [c + 32]
  else if c =? 0x130 then [0x69; 0x307]
  else [c].

Definition is_cased (c : char) : bool :=
  latin_capital c || latin_small c || greek_capital c || greek_small c
  || (c =? 0x130).

Definition isalpha (c : char) : bool := is_cased c.

Definition is_case_ignorable (c : char) : bool :=
  existsb (N.eqb c) [0x27; 0x2E; 0x3A; 0x5E; 0x60; 0x307].

Definition ucd : Unicode.Database := {|
  Unicode.tolower_full := tolower_full;
  Unicode.isalpha := isalpha;
  Unicode.is_cased := is_cased;
  Unicode.is_case_ignorable := is_case_ignorable
|}.

End Fragment.

(** ** Built-in string methods *)

Section Builtins.

Variable U : Unicode.Database.

(** Skips the case-ignorable characters at the head of [s]. *)
Fixpoint skip_case_ignorable (s : str) : str :=
  match s with
  | [] => []
  | c :: s' =>
      if Unicode.is_case_ignorable U c then skip_case_ignorable s' else s
  end.

(** U+03A3 is in the Final_Sigma context when a cased letter precedes it
    and none follows, case-ignorable characters skipped on both sides.
    [before] is the text to the left, nearest character first. *)
Definition final_sigma (before after : str) : bool :=
  match skip_case_ignorable before with
  | [] => false
  | c :: _ =>
      Unicode.is_cased U c &&
      match skip_case_ignorable after with
      | [] => true
      | d :: _ => negb (Unicode.is_cased U d)
      end
  end.

Definition handle_capital_sigma (before after : str) : char :=
  if final_sigma before after then FINAL_SIGMA else SMALL_SIGMA.

Definition lower_char (before : str) (c : char) (after : str) : str :=
  if c =? CAPITAL_SIGMA then [handle_capital_sigma before after]
  else Unicode.tolower_full U c.

Fixpoint lower_from (before : str) (s : str) : str :=
  match s with
  | [] => []
  | c :: rest => lower_char before c rest ++ lower_from (c :: before) rest
  end.

(** [s.lower()] *)
Definition str_lower (s : str) : str := lower_from [] s.

(** [c.isalpha()] for a one-character string. *)
Definition str_isalpha (c : char) : bool := Unicode.isalpha U c.

End Builtins.

(** [str.maketrans(d)] for a dictionary [d] from one-character strings to
    strings: the table maps the key's ordinal to the replacement. *)
Definition translation := list (char * str).

Definition str_maketrans (d : list (char * str)) : translation := d.

Fixpoint table_lookup (table : translation) (c : char) : option str :=
  match table with
  | [] => None
  | (k, r) :: table' => if k =? c then Some r else table_lookup table' c
  end.

Definition translate_char (table : translation) (c : char) : str :=
  match table_lookup table c with
  | Some r => r
  | None => [c]
  end.

(** [s.translate(table)] *)
Definition str_translate (table : translation) (s : str) : str :=
  flat_map (translate_char table) s.

(** [sep.join(parts)] *)
Fixpoint str_join (sep : str) (parts : list str) : str :=
  match parts with
  | [] => []
  | [p] => p
  | p :: parts' => p ++ sep ++ str_join sep parts'
  end.

(** [str(n)] for an [int]. *)
Definition str_of_int (n : Z) : str :=
  lit (NilZero.string_of_int (Z.to_int n)).

(** ** Dictionaries and [collections.Counter]

    The items are kept in insertion order; assigning to a key that is
    present keeps its position. *)

Definition dict := list (char * Z).

(** [d.get(k)] *)
Fixpoint dict_get (d : dict) (k : char) : option Z :=
  match d with
  | [] => None
  | (k', v) :: d' => if k' =? k then Some v else dict_get d' k
  end.

(** [d.get(k, default)] *)
Definition dict_get_default (d : dict) (k : char) (default : Z) : Z :=
  match dict_get d k with
  | Some v => v
  | None => default
  end.

(** [d[k] = v] *)
Fixpoint dict_setitem (d : dict) (k : char) (v : Z) : dict :=
  match d with
  | [] => [(k, v)]
  | (k', v') :: d' =>
      if k' =? k then (k', v) :: d' else (k', v') :: dict_setitem d' k v
  end.

Definition dict_keys (d : dict) : list char := map fst d.
Definition dict_values (d : dict) : list Z := map snd d.
Definition dict_items (d : dict) : list (char * Z) := d.

(** [d.update(other)] for a mapping [other]. *)
Definition dict_update (d other : dict) : dict :=
  fold_left (fun acc item => dict_setitem acc (fst item) (snd item))
            (dict_items other) d.

(** [dict(d)]: a copy with the same items in the same order. *)
Definition dict_copy (d : dict) : dict := dict_items d.

(** Python compares dictionaries by content, not by order: [a == b]. *)
Definition dict_eq (a b : dict) : Prop :=
  forall k, dict_get a k = dict_get b k.

(** The keys of a dictionary are pairwise distinct. *)
Fixpoint distinct (ks : list char) : bool :=
  match ks with
  | [] => true
  | k :: ks' => negb (existsb (N.eqb k) ks') && distinct ks'
  end.

Definition dict_wf (d : dict) : Prop := distinct (dict_keys d) = true.

Definition Counter := dict.

(** [Counter()] *)
Definition Counter_new : Counter := [].

(** [_count_elements(mapping, iterable)]: tally the elements. *)
Definition count_elements (mapping : Counter) (iterable : str) : Counter :=
  fold_left
    (fun m elem => dict_setitem m elem (dict_get_default m elem 0 + 1)%Z)
    iterable mapping.

(** [self.update(other)] for a mapping [other]: the counts of [other] are
    added to those of [self]; an empty [self] takes the items as they
    are. *)
Definition Counter_update (self other : Counter) : Counter :=
  match self with
  | [] => dict_update self other
  | _ :: _ =>
      fold_left
        (fun s item =>
           dict_setitem s (fst item)
             (snd item + dict_get_default s (fst item) 0)%Z)
        (dict_items other) self
  end.

(** [self.update(iterable)] for an iterable of elements. *)
Definition Counter_update_iterable (self : Counter) (iterable : str)
  : Counter :=
  count_elements self iterable.

(** [Counter(iterable)] *)
Definition Counter_of (iterable : str) : Counter :=
  Counter_update_iterable Counter_new iterable.

(** Sum of the counts, [sum(d.values())]. *)
Definition total (d : dict) : Z := fold_right Z.add 0%Z (dict_values d).

(** ** Generators, exceptions and the outside world

    [read] returns a generator.  Run to its end it yields chunks and then
    either stops or raises; [printed] is what it printed before raising.
    An exception is represented by its message. *)

Definition exn := str.

Record generator : Type := {
  yields : list str;
  printed : str;
  raised : option exn
}.

(** A generator expression [(f(x) for x in g)]. *)
Definition generator_map (f : str -> str) (g : generator) : generator :=
  {| yields := map f (yields g); printed := printed g; raised := raised g |}.

(** The target file ([None] while it has not been opened for writing) and
    the standard output. *)
Record world : Type := {
  target_file : option str;
  stdout : str
}.

Definition initial_world : world := {| target_file := None; stdout := [] |}.

Inductive outcome : Type :=
| Completed (w : world)
| Aborted (e : exn) (w : world).

Definition final_world (o : outcome) : world :=
  match o with
  | Completed w => w
  | Aborted _ w => w
  end.

(** ** The abstract base classes

    [read] takes the number of earlier calls on the same reader, since
    the file or the database behind it may answer differently each time. *)

Record InputReader : Type := { read : nat -> generator }.

Record OutputWriter : Type := {
  write : generator -> dict -> world -> outcome
}.

Record TextSanitizer : Type := { sanitize : str -> str }.

Record StatisticsCalculator : Type := { calculate : list str -> dict }.

(** A reader is replayable when its second read repeats the first. *)
Definition replayable (r : InputReader) : Prop := read r 1 = read r 0.

(** ** [MemoryMappedFileInputReader] *)

Definition byte := N.
Definition bytes := list byte.

Definition continuation (b : byte) : bool := (0x80 <=? b) && (b <=? 0xBF).

(** The second byte of a three-byte and of a four-byte sequence; the
    narrower ranges rule out overlong forms, surrogates and code points
    above U+10FFFF. *)
Definition second_of_three (b0 b1 : byte) : bool :=
  if b0 =? 0xE0 then (0xA0 <=? b1) && (b1 <=? 0xBF)
  else if b0 =? 0xED then (0x80 <=? b1) && (b1 <=? 0x9F)
  else continuation b1.

Definition second_of_four (b0 b1 : byte) : bool :=
  if b0 =? 0xF0 then (0x90 <=? b1) && (b1 <=? 0xBF)
  else if b0 =? 0xF4 then (0x80 <=? b1) && (b1 <=? 0x8F)
  else continuation b1.

(** [b.decode('utf-8')]; [None] stands for [UnicodeDecodeError]. *)
Fixpoint bytes_decode_utf8 (b : bytes) : option str :=
  match b with
  | [] => Some []
  | b0 :: r0 =>
      if b0 <? 0x80 then option_map (cons b0) (bytes_decode_utf8 r0)
      else if (0xC2 <=? b0) && (b0 <=? 0xDF) then
        match r0 with
        | b1 :: r1 =>
            if continuation b1 then
              option_map (cons ((b0 - 0xC0) * 64 + (b1 - 0x80)))
                         (bytes_decode_utf8 r1)
            else None
        | _ => None
        end
      else if (0xE0 <=? b0) && (b0 <=? 0xEF) then
        match r0 with
        | b1 :: b2 :: r2 =>
            if second_of_three b0 b1 && continuation b2 then
              option_map
                (cons ((b0 - 0xE0) * 4096 + (b1 - 0x80) * 64 + (b2 - 0x80)))
                (bytes_decode_utf8 r2)
            else None
        | _ => None
        end
      else if (0xF0 <=? b0) && (b0 <=? 0xF4) then
        match r0 with
        | b1 :: b2 :: b3 :: r3 =>
            if second_of_four b0 b1 && continuation b2 && continuation b3 then
              option_map
                (cons ((b0 - 0xF0) * 262144 + (b1 - 0x80) * 4096
                       + (b2 - 0x80) * 64 + (b3 - 0x80)))
                (bytes_decode_utf8 r3)
            else None
        | _ => None
        end
      else None
  end.

(** [range(0, stop, step)] for a positive [step]. *)
Definition range_step (stop step : nat) : list nat :=
  map (fun j => (j * step)%nat) (seq 0 ((stop + step - 1) / step)).

(** [b[i:j]] for [0 <= i <= j]. *)
Definition bytes_slice (b : bytes) (i j : nat) : bytes :=
  firstn (j - i) (skipn i b).

(** What the file system answers to [open] and [mmap]: the content of the
    file, or the failure of [open]. *)
Inductive file_response : Type :=
| FileContent (content : bytes)
| FileError (error : exn).

Definition raise (e : exn) : generator :=
  {| yields := []; printed := []; raised := Some e |}.

Definition ValueError_mmap : exn := lit "cannot mmap an empty file".
Definition ValueError_range : exn := lit "range() arg 3 must not be zero".
Definition UnicodeDecodeError : exn :=
  lit "'utf-8' codec can't decode bytes".

(** The loop over the windows: every window is decoded when its turn
    comes, and the first that fails ends the generator. *)
Fixpoint decode_windows (windows : list bytes) : generator :=
  match windows with
  | [] => {| yields := []; printed := []; raised := None |}
  | window :: rest =>
      match bytes_decode_utf8 window with
      | None => raise UnicodeDecodeError
      | Some chunk =>
          let g := decode_windows rest in
          {| yields := chunk :: yields g;
             printed := printed g;
             raised := raised g |}
      end
  end.

Definition MemoryMappedFileInputReader_read (chunk_size : Z)
  (response : file_response) : generator :=
  match response with
  | FileError error => raise error
  | FileContent [] => raise ValueError_mmap
  | FileContent mmap_obj =>
      if (chunk_size =? 0)%Z then raise ValueError_range
      else if (chunk_size <? 0)%Z then decode_windows []
      else
        let size := Z.to_nat chunk_size in
        decode_windows
          (map (fun i => bytes_slice mmap_obj i (i + size))
               (range_step (List.length mmap_obj) size))
  end.

Definition default_chunk_size : Z := 1024 * 1024.

Definition MemoryMappedFileInputReader (chunk_size : Z)
  (file : nat -> file_response) : InputReader :=
  {| read := fun n => MemoryMappedFileInputReader_read chunk_size (file n) |}.

(** ** [DatabaseInputReader] *)

(** What the database answers to one [connect], [execute], [fetchall]
    sequence: the rows, every column already rendered by [str], or a
    failure of one of the three calls. *)
Inductive db_response : Type :=
| Rows (rows : list (list str))
| DbError (error : exn).

Definition DatabaseInputReader_read (response : db_response) : generator :=
  match response with
  | Rows rows =>
      {| yields := map (str_join [SPACE]) rows;
         printed := [];
         raised := None |}
  | DbError error =>
      {| yields := [];
         printed := lit "Error while connecting to PostgreSQL " ++ error
                    ++ [NEWLINE];
         raised := Some error |}
  end.

Definition DatabaseInputReader (db : nat -> db_response) : InputReader :=
  {| read := fun n => DatabaseInputReader_read (db n) |}.

(** ** [FileOutputWriter] *)

Definition statistics_header : str :=
  [NEWLINE] ++ lit "Count of alphabelt:" ++ [NEWLINE].

(** [f'{char}: {count}\n'] *)
Definition statistics_line (item : char * Z) : str :=
  [fst item] ++ lit ": " ++ str_of_int (snd item) ++ [NEWLINE].

(** The file is opened with mode ['w'], which empties it; every chunk is
    written and printed as it arrives; an exception of the iterator leaves
    the chunks written so far in the file.  This is the writer of a target
    that opens and accepts every write; [FileOutputWriter_opening] below
    adds the failure of [open]. *)
Definition FileOutputWriter_write
  (sanitized_text : generator) (statistics : dict) (w : world) : outcome :=
  let chunks := concat (yields sanitized_text) in
  match raised sanitized_text with
  | Some e =>
      Aborted e
        {| target_file := Some chunks;
           stdout := stdout w ++ chunks ++ printed sanitized_text |}
  | None =>
      let text :=
        chunks ++ statistics_header
        ++ flat_map statistics_line (dict_items statistics) in
      Completed
        {| target_file := Some text; stdout := stdout w ++ text |}
  end.

Definition FileOutputWriter : OutputWriter :=
  {| write := FileOutputWriter_write |}.

(** ** [ProcessTextSanitizer], [AlphabetStatisticsCalculator] and the
    two helper functions *)

Section Classes.

Variable U : Unicode.Database.

Definition translation_table : translation :=
  str_maketrans [(TAB, lit "____")].

Definition ProcessTextSanitizer_sanitize (text : str) : str :=
  str_translate translation_table (str_lower U text).

Definition ProcessTextSanitizer : TextSanitizer :=
  {| sanitize := ProcessTextSanitizer_sanitize |}.

Definition AlphabetStatisticsCalculator_calculate (text : list str) : dict :=
  dict_copy
    (fold_left
       (fun counter chunk =>
          Counter_update_iterable counter
            (filter (str_isalpha U) (str_lower U chunk)))
       text Counter_new).

Definition AlphabetStatisticsCalculator : StatisticsCalculator :=
  {| calculate := AlphabetStatisticsCalculator_calculate |}.

Definition sanitize_chunk (sanitizer : TextSanitizer) (chunk : str) : str :=
  sanitize sanitizer chunk.

Definition calculate_statistics_chunk (chunk : str) : Counter :=
  Counter_of (filter (str_isalpha U) (str_lower U chunk)).

(** ** [TextProcessor] *)

Record TextProcessor : Type := {
  input_reader : InputReader;
  output_writer : OutputWriter;
  sanitizer : TextSanitizer;
  statistics_calculator : StatisticsCalculator
}.

(** [pool.imap(f, iterable, chunksize)]: the results come back in the
    order of the inputs, whichever worker finishes first. *)
Definition imap {A B : Type} (f : A -> B) (iterable : list A) : list B :=
  map f iterable.

(** The first pass of [process]: sanitize every chunk, count every
    sanitized chunk, add up the partial counters in the order [imap]
    delivers them. *)
Definition combined_statistics (s : TextSanitizer) (chunks : list str)
  : Counter :=
  let sanitized_chunks := imap (sanitize_chunk s) chunks in
  let statistics_chunks := imap calculate_statistics_chunk sanitized_chunks in
  fold_left Counter_update statistics_chunks Counter_new.

Definition process (p : TextProcessor) (w : world) : outcome :=
  let input_text := read (input_reader p) 0 in
  match raised input_text with
  | Some e =>
      Aborted e
        {| target_file := target_file w;
           stdout := stdout w ++ printed input_text |}
  | None =>
      let statistics := combined_statistics (sanitizer p) (yields input_text) in
      let input_text := read (input_reader p) 1 in
      let sanitized_iterator :=
        generator_map (sanitize (sanitizer p)) input_text in
      write (output_writer p) sanitized_iterator (dict_copy statistics) w
  end.

(** ** [main]

    The settings arrive already merged from the command line and the
    configuration file.  [file] and [db] say what the input file and the
    database answer to each read. *)

Definition ValueError_source : exn :=
  lit "Source must be either 'file' or 'db'".

(** The processor that [main] builds around the reader it has chosen. *)
Definition text_processor (reader : InputReader) : TextProcessor :=
  {| input_reader := reader;
     output_writer := FileOutputWriter;
     sanitizer := ProcessTextSanitizer;
     statistics_calculator := AlphabetStatisticsCalculator |}.

(** [source == kind], where an absent setting is [None]. *)
Definition source_is (source : option string) (kind : string) : bool :=
  match source with
  | Some s => String.eqb s kind
  | None => false
  end.

Definition main (source : option string) (file : nat -> file_response)
  (db : nat -> db_response) : outcome :=
  if source_is source "file" then
    process
      (text_processor (MemoryMappedFileInputReader default_chunk_size file))
      initial_world
  else if source_is source "db" then
    process (text_processor (DatabaseInputReader db)) initial_world
  else Aborted ValueError_source initial_world.

End Classes.

(** ** The output format as the specification words it *)

Definition spec_statistics_header : str :=
  [NEWLINE] ++ lit "Count of alphabet:" ++ [NEWLINE].

Definition spec_output (normalized_chunks : list str) (statistics : dict)
  : str :=
  concat normalized_chunks ++ spec_statistics_header
  ++ flat_map statistics_line statistics.

(** ** Vocabulary of the claims *)

(** A character is in lowercase form when lowercasing leaves it alone. *)
Definition lowercase (U : Unicode.Database) (c : char) : Prop :=
  str_lower U [c] = [c].

(** Number of alphabetic characters of a text. *)
Definition alphabetic_count (U : Unicode.Database) (text : str) : Z :=
  Z.of_nat (List.length (filter (str_isalpha U) text)).

(** Number of occurrences of a character in a text. *)
Definition occurrences (c : char) (text : str) : nat :=
  List.length (filter (N.eqb c) text).

(** The substitution the translation table stands for. *)
Definition underscores : str :=
  [UNDERSCORE; UNDERSCORE; UNDERSCORE; UNDERSCORE].

Definition replace_tab (c : char) : str :=
  if c =? TAB then underscores else [c].

(** Key order of a dictionary after its keys [ks] were extended by the
    assignments to the keys [l], one after the other. *)
Definition mem (k : char) (ks : list char) : bool := existsb (N.eqb k) ks.

Definition add_key (ks : list char) (k : char) : list char :=
  if mem k ks then ks else ks ++ [k].

Definition extend (ks l : list char) : list char := fold_left add_key l ks.

(** Sum of two optional counts: what [merge] does at one key. *)
Definition option_sum (x y : option Z) : option Z :=
  match x, y with
  | Some a, Some b => Some (b + a)%Z
  | Some a, None => Some a
  | None, y => y
  end.

(** One step of the loop of [Counter.update] over the items of a mapping,
    and the loop itself. *)
Definition add_count (s : dict) (item : char * Z) : dict :=
  dict_setitem s (fst item) (snd item + dict_get_default s (fst item) 0)%Z.

Definition accumulate (s : dict) (items : list (char * Z)) : dict :=
  fold_left add_count items s.

(** Sum of the counts that a list of items carries for the key [k]. *)
Definition weight (k : char) (items : list (char * Z)) : Z :=
  fold_right (fun item acc => if fst item =? k then (snd item + acc)%Z else acc)
             0%Z items.

(** The alphabetic characters that a sanitized chunk contributes to the
    statistics. *)
Definition letters (U : Unicode.Database) (s : TextSanitizer) (chunk : str)
  : str :=
  filter (str_isalpha U) (str_lower U (sanitize s chunk)).

(** A generator that yields the given chunks and stops. *)
Definition chunk_source (chunks : list str) : generator :=
  {| yields := chunks; printed := []; raised := None |}.

(** The scenario of the specification, ["Hello\tWorld"]. *)
Definition hello_world : str := lit "Hello" ++ [TAB] ++ lit "World".

Definition ch (a : ascii) : char := N_of_ascii a.

(** [merge(a, b)]: the reduction of [process] adds [b] to [a] with
    [Counter.update]. *)
Definition merge (a b : Counter) : Counter := Counter_update a b.

(** ** The settings of [main]: command line and configuration file

    [main] as the module has it, in front of the choice of the reader:
    the parsed command line, the configuration file read by
    [configparser], the settings taken from the file with the command
    line as fallback, and the connection parameters, which only the
    configuration file provides. *)

Record arguments : Type := {
  args_source : option string;
  args_input : option string;
  args_target : option string;
  args_query : option string;
  args_config : option string
}.

(** What [config.get(section, option)] meets once the file is read: a
    value; no such section or option ([NoSectionError], [NoOptionError]);
    or a value that cannot be interpolated, which raises with or without
    a fallback. *)
Inductive config_entry : Type :=
| Found (value : string)
| Missing (error : exn)
| Broken (error : exn).

Definition ConfigParser := string -> string -> config_entry.

(** Computations that may raise. *)
Definition bind {A B : Type} (x : exn + A) (f : A -> exn + B) : exn + B :=
  match x with
  | inl e => inl e
  | inr a => f a
  end.

Notation "x <- c ;; k" := (bind c (fun x => k))
  (at level 61, c at next level, right associativity).

(** [config.get(section, option)] *)
Definition config_get (config : ConfigParser) (section name : string)
  : exn + string :=
  match config section name with
  | Found value => inr value
  | Missing error => inl error
  | Broken error => inl error
  end.

(** [config.get(section, option, fallback=fallback)] *)
Definition config_get_fallback (config : ConfigParser)
  (section name : string) (fallback : option string)
  : exn + option string :=
  match config section name with
  | Found value => inr (Some value)
  | Missing _ => inr fallback
  | Broken error => inl error
  end.

(** The truth value of an optional string: [None] and [""] are false. *)
Definition truthy (s : option string) : bool :=
  match s with
  | Some s => negb (String.eqb s "")
  | None => false
  end.

Record connection_parameters : Type := {
  dbname : string;
  user : string;
  password : string;
  host : string;
  port : string
}.

Record settings : Type := {
  setting_source : option string;
  setting_input : option string;
  setting_target : option string;
  setting_query : option string;
  setting_connection : option connection_parameters
}.

(** [config_read] is what [config.read(args.config)] leaves: the parser
    with the content of the file (empty when the file does not exist), or
    the parsing error it raises. *)
Definition resolve_settings (args : arguments)
  (config_read : exn + ConfigParser) : exn + settings :=
  if truthy (args_config args) then
    config <- config_read ;;
    source <- config_get_fallback config "settings" "source"
                (args_source args) ;;
    input_file <- config_get_fallback config "settings" "input"
                    (args_input args) ;;
    target <- config_get_fallback config "settings" "target"
                (args_target args) ;;
    query <- config_get_fallback config "settings" "query"
               (args_query args) ;;
    if source_is source "db" then
      dbname <- config_get config "database" "dbname" ;;
      user <- config_get config "database" "user" ;;
      password <- config_get config "database" "password" ;;
      host <- config_get config "database" "host" ;;
      port <- config_get config "database" "port" ;;
      inr {| setting_source := source;
             setting_input := input_file;
             setting_target := target;
             setting_query := query;
             setting_connection :=
               Some {| dbname := dbname; user := user;
                       password := password; host := host;
                       port := port |} |}
    else
      inr {| setting_source := source;
             setting_input := input_file;
             setting_target := target;
             setting_query := query;
             setting_connection := None |}
  else
    inr {| setting_source := args_source args;
           setting_input := args_input args;
           setting_target := args_target args;
           setting_query := args_query args;
           setting_connection := None |}.

(** [open(None, mode)] *)
Definition TypeError_path : exn :=
  lit "expected str, bytes or os.PathLike object, not NoneType".

(** The input file behind a path, when there is a path. *)
Definition open_input (fs : string -> nat -> file_response)
  (input_file : option string) : nat -> file_response :=
  match input_file with
  | Some path => fs path
  | None => fun _ => FileError TypeError_path
  end.

(** [psycopg2.connect], called with the connection parameters unpacked as
    keyword arguments, and what follows it inside the [try]: when the
    parameters are [None] the call itself raises a [TypeError], whose text
    is [TypeError_connect]. *)
Definition connect (TypeError_connect : exn)
  (db : connection_parameters -> option string -> nat -> db_response)
  (connection_params : option connection_parameters) (query : option string)
  : nat -> db_response :=
  match connection_params with
  | Some params => db params query
  | None => fun _ => DbError TypeError_connect
  end.

(** [FileOutputWriter(target)]: a target path can be opened for writing;
    without a path [open] raises before anything is read from the
    iterator. *)
Definition FileOutputWriter_at (target : option string) : OutputWriter :=
  match target with
  | Some _ => FileOutputWriter
  | None => {| write := fun _ _ w => Aborted TypeError_path w |}
  end.

Definition main_args (U : Unicode.Database) (TypeError_connect : exn)
  (args : arguments) (config_read : exn + ConfigParser)
  (fs : string -> nat -> file_response)
  (db : connection_parameters -> option string -> nat -> db_response)
  : outcome :=
  match resolve_settings args config_read with
  | inl e => Aborted e initial_world
  | inr s =>
      let processor reader :=
        {| input_reader := reader;
           output_writer := FileOutputWriter_at (setting_target s);
           sanitizer := ProcessTextSanitizer U;
           statistics_calculator := AlphabetStatisticsCalculator U |} in
      if source_is (setting_source s) "file" then
        process U
          (processor
             (MemoryMappedFileInputReader default_chunk_size
                (open_input fs (setting_input s))))
          initial_world
      else if source_is (setting_source s) "db" then
        process U
          (processor
             (DatabaseInputReader
                (connect TypeError_connect db (setting_connection s)
                   (setting_query s))))
          initial_world
      else Aborted ValueError_source initial_world
  end.

(** ** The writer when the target may not open

    [open(self.target, 'w')] is the first statement of
    [FileOutputWriter.write].  [opening] is the exception it raises, if
    any: it is raised before the iterator is touched, so nothing is read
    a second time, and the target is left as it was.  Once the file is
    open, every [file.write] is taken to succeed. *)
Definition FileOutputWriter_opening (opening : option exn) : OutputWriter :=
  {| write := fun sanitized_text statistics w =>
       match opening with
       | Some e => Aborted e w
       | None => FileOutputWriter_write sanitized_text statistics w
       end |}.

(** What [open] does with the target of the settings: a path opens,
    [None] raises. *)
Definition target_opening (target : option string) : option exn :=
  match target with
  | Some _ => None
  | None => Some TypeError_path
  end.

(** The processor that [main] builds around a reader, for a target that
    opens as [opening] says. *)
Definition run_processor (U : Unicode.Database) (reader : InputReader)
  (opening : option exn) : TextProcessor :=
  {| input_reader := reader;
     output_writer := FileOutputWriter_opening opening;
     sanitizer := ProcessTextSanitizer U;
     statistics_calculator := AlphabetStatisticsCalculator U |}.

(** The reader that [main] builds from the settings, when the source is
    one of the two it knows. *)
Definition main_reader (TypeError_connect : exn) (s : settings)
  (fs : string -> nat -> file_response)
  (db : connection_parameters -> option string -> nat -> db_response)
  : option InputReader :=
  if source_is (setting_source s) "file" then
    Some (MemoryMappedFileInputReader default_chunk_size
            (open_input fs (setting_input s)))
  else if source_is (setting_source s) "db" then
    Some (DatabaseInputReader
            (connect TypeError_connect db (setting_connection s)
               (setting_query s)))
  else None.

(** ** Letters that are not lowercase

    Two more rows of the Unicode tables: U+03D2, an uppercase letter
    without a lowercase mapping, and U+4E2D, a letter without case; and
    the properties Lowercase and Uppercase, which [c.islower()] and
    [c.isupper()] test on a one-character string. *)

Definition UPSILON_HOOK : char := 0x3D2.
Definition CJK_MIDDLE : char := 0x4E2D.

Module WiderFragment.

Definition isalpha (c : char) : bool :=
  Fragment.isalpha c || (c =? UPSILON_HOOK) || (c =? CJK_MIDDLE).

Definition is_cased (c : char) : bool :=
  Fragment.is_cased c || (c =? UPSILON_HOOK).

Definition ucd : Unicode.Database := {|
  Unicode.tolower_full := Fragment.tolower_full;
  Unicode.isalpha := isalpha;
  Unicode.is_cased := is_cased;
  Unicode.is_case_ignorable := Fragment.is_case_ignorable
|}.

Definition islower (c : char) : bool :=
  Fragment.latin_small c || Fragment.greek_small c.

Definition isupper (c : char) : bool :=
  Fragment.latin_capital c || Fragment.greek_capital c
  || (c =? 0x130) || (c =? UPSILON_HOOK).

End WiderFragment.

(** ** Vocabulary of the further properties *)

(** Text made of ASCII characters, and bytes below 128. *)
Definition ascii_text (s : list N) : bool := forallb (fun c => c <? 128) s.

(** The windows that the loop of [MemoryMappedFileInputReader.read] cuts
    out of the mapped file: [mmap_obj[i:i + size]] for [i] in
    [range(0, len(mmap_obj), size)]. *)
Definition file_windows (mmap_obj : bytes) (size : nat) : list bytes :=
  map (fun i => bytes_slice mmap_obj i (i + size))
      (range_step (List.length mmap_obj) size).

(** Unicode scalar values: code points up to U+10FFFF that are not
    surrogates. *)
Definition scalar_value (c : char) : bool :=
  (c <? 0x110000) && negb ((0xD800 <=? c) && (c <=? 0xDFFF)).

(** The alphabetic characters of a text lowercased character by
    character. *)
Definition lowercase_letters (U : Unicode.Database) (s : str) : str :=
  filter (str_isalpha U) (flat_map (Unicode.tolower_full U) s).

(** * Proofs *)

(** ** The fragment satisfies the laws *)

Ltac split_comparisons :=
  repeat match goal with
         | H : context [N.leb ?a ?b] |- _ => destruct (N.leb_spec a b)
         | H : context [N.eqb ?a ?b] |- _ => destruct (N.eqb_spec a b)
         | |- context [N.leb ?a ?b] => destruct (N.leb_spec a b)
         | |- context [N.eqb ?a ?b] => destruct (N.eqb_spec a b)
         end.

Lemma fragment_laws : Unicode.Laws Fragment.ucd.
Proof.
  constructor; simpl.
  - intros c Hc.
    unfold Fragment.tolower_full, Fragment.latin_capital,
      Fragment.greek_capital, Unicode.ascii_tolower.
    split_comparisons; simpl; try reflexivity; lia.
  - intros c Hc.
    unfold Fragment.isalpha, Fragment.is_cased, Fragment.latin_capital,
      Fragment.latin_small, Fragment.greek_capital, Fragment.greek_small,
      Unicode.ascii_isalpha.
    split_comparisons; simpl; try reflexivity; lia.
  - intros c d.
    unfold Fragment.tolower_full, Fragment.latin_capital,
      Fragment.greek_capital.
    intros Hd.
    split_comparisons; simpl in *; subst;
      repeat match goal with
             | H : _ \/ _ |- _ => destruct H
             | H : False |- _ => destruct H
             end; subst; try reflexivity; try lia.
  - intros c.
    unfold Fragment.tolower_full, Fragment.latin_capital,
      Fragment.greek_capital, TAB.
    intros Hc.
    split_comparisons; simpl in *;
      repeat match goal with
             | H : _ \/ _ |- _ => destruct H
             | H : False |- _ => destruct H
             end; subst; try reflexivity; try lia.
  - reflexivity.
  - reflexivity.
Qed.

(** ** Lowercasing *)

Section LowerFacts.

Variable U : Unicode.Database.

Lemma lowercase_iff (c : char) :
  lowercase U c <-> Unicode.tolower_full U c = [c] /\ c <> CAPITAL_SIGMA.
Proof.
  unfold lowercase, str_lower; simpl. unfold lower_char.
  destruct (N.eqb_spec c CAPITAL_SIGMA) as [-> | Hc].
  - split.
    + intros H. discriminate H.
    + intros [_ H]. now elim H.
  - rewrite app_nil_r. tauto.
Qed.

(** Away from capital sigma, lowercasing is character by character. *)
Lemma lower_from_sigma_free (s before : str) :
  ~ In CAPITAL_SIGMA s ->
  lower_from U before s = flat_map (Unicode.tolower_full U) s.
Proof.
  revert before. induction s as [| c s IH]; intros before Hs; simpl.
  - reflexivity.
  - unfold lower_char.
    destruct (N.eqb_spec c CAPITAL_SIGMA) as [-> | Hc].
    + elim Hs. now left.
    + f_equal. apply IH. intros H. apply Hs. now right.
Qed.

Lemma str_lower_sigma_free (s : str) :
  ~ In CAPITAL_SIGMA s -> str_lower U s = flat_map (Unicode.tolower_full U) s.
Proof. apply lower_from_sigma_free. Qed.

Lemma str_lower_app (a b : str) :
  ~ In CAPITAL_SIGMA (a ++ b) ->
  str_lower U (a ++ b) = str_lower U a ++ str_lower U b.
Proof.
  intros H.
  assert (Ha : ~ In CAPITAL_SIGMA a) by (intros Hin; apply H, in_or_app; auto).
  assert (Hb : ~ In CAPITAL_SIGMA b) by (intros Hin; apply H, in_or_app; auto).
  rewrite (str_lower_sigma_free _ H), (str_lower_sigma_free _ Ha),
    (str_lower_sigma_free _ Hb).
  apply flat_map_app.
Qed.

Lemma lowercase_fixed (s : str) :
  Forall (lowercase U) s -> str_lower U s = s.
Proof.
  intros Hs.
  rewrite str_lower_sigma_free.
  - induction Hs as [| c s Hc _ IH]; simpl.
    + reflexivity.
    + apply lowercase_iff in Hc. destruct Hc as [-> _]. simpl. now f_equal.
  - intros Hin. rewrite Forall_forall in Hs.
    apply Hs, lowercase_iff in Hin. now destruct Hin.
Qed.

Hypothesis laws : Unicode.Laws U.

Lemma small_sigma_lowercase : lowercase U SMALL_SIGMA.
Proof.
  apply lowercase_iff. split; [| discriminate].
  apply (Unicode.lower_stable_law U laws CAPITAL_SIGMA).
  rewrite (Unicode.capital_sigma_law U laws). now left.
Qed.

Lemma final_sigma_lowercase : lowercase U FINAL_SIGMA.
Proof.
  apply lowercase_iff. split; [| discriminate].
  apply (Unicode.final_sigma_law U laws).
Qed.

Lemma tolower_full_lowercase (c d : char) :
  In d (Unicode.tolower_full U c) -> lowercase U d.
Proof.
  intros Hd. apply lowercase_iff.
  pose proof (Unicode.lower_stable_law U laws c d Hd) as Hst.
  split; [exact Hst |].
  intros ->. rewrite (Unicode.capital_sigma_law U laws) in Hst.
  discriminate Hst.
Qed.

Lemma lower_char_lowercase (before after : str) (c d : char) :
  In d (lower_char U before c after) -> lowercase U d.
Proof.
  unfold lower_char, handle_capital_sigma.
  destruct (c =? CAPITAL_SIGMA).
  - destruct (final_sigma U before after); intros [<- | []].
    + apply final_sigma_lowercase.
    + apply small_sigma_lowercase.
  - apply tolower_full_lowercase.
Qed.

Lemma lower_from_lowercase (s before : str) :
  Forall (lowercase U) (lower_from U before s).
Proof.
  revert before. induction s as [| c s IH]; intros before; simpl.
  - constructor.
  - apply Forall_app. split; [| apply IH].
    apply Forall_forall. intros d. apply lower_char_lowercase.
Qed.

Lemma str_lower_lowercase (s : str) : Forall (lowercase U) (str_lower U s).
Proof. apply lower_from_lowercase. Qed.

Lemma str_lower_idempotent (s : str) :
  str_lower U (str_lower U s) = str_lower U s.
Proof. apply lowercase_fixed, str_lower_lowercase. Qed.

Lemma ascii_lowercase (c : char) :
  c < 128 -> Unicode.ascii_tolower c = c -> lowercase U c.
Proof.
  intros Hc Hfix. apply lowercase_iff. split.
  - rewrite (Unicode.ascii_lower_law U laws c Hc). now rewrite Hfix.
  - intros ->. discriminate Hc.
Qed.

End LowerFacts.

(** ** ASCII text *)

Section AsciiFacts.

Variable U : Unicode.Database.
Hypothesis laws : Unicode.Laws U.

Lemma str_lower_ascii (s : str) :
  forallb (fun c => c <? 128) s = true ->
  str_lower U s = map Unicode.ascii_tolower s.
Proof.
  intros Hs. rewrite forallb_forall in Hs.
  rewrite str_lower_sigma_free.
  - induction s as [| c s IH]; simpl; [reflexivity |].
    rewrite (Unicode.ascii_lower_law U laws c).
    + simpl. f_equal. apply IH. intros x Hx. apply Hs. now right.
    + apply N.ltb_lt, Hs. now left.
  - intros Hin. apply Hs in Hin. discriminate Hin.
Qed.

Lemma filter_isalpha_ascii (s : str) :
  forallb (fun c => c <? 128) s = true ->
  filter (str_isalpha U) s = filter Unicode.ascii_isalpha s.
Proof.
  intros Hs. rewrite forallb_forall in Hs.
  apply filter_ext_in. intros c Hc.
  apply (Unicode.ascii_alpha_law U laws), N.ltb_lt, Hs, Hc.
Qed.

End AsciiFacts.

(** ** The sanitizer *)

Lemma translate_char_tab (c : char) :
  translate_char translation_table c = replace_tab c.
Proof.
  unfold translate_char, translation_table, str_maketrans, replace_tab.
  cbn [table_lookup]. rewrite (N.eqb_sym TAB c).
  destruct (c =? TAB); reflexivity.
Qed.

Lemma str_translate_tab (s : str) :
  str_translate translation_table s = flat_map replace_tab s.
Proof.
  unfold str_translate. apply flat_map_ext. exact translate_char_tab.
Qed.

Lemma replace_tab_free (s : str) :
  ~ In TAB s -> flat_map replace_tab s = s.
Proof.
  induction s as [| c s IH]; intros Hs; simpl; [reflexivity |].
  unfold replace_tab at 1.
  destruct (N.eqb_spec c TAB) as [-> | Hc].
  - elim Hs. now left.
  - simpl. f_equal. apply IH. intros H. apply Hs. now right.
Qed.

Lemma replace_tab_no_tab (s : str) : ~ In TAB (flat_map replace_tab s).
Proof.
  intros Hin. apply in_flat_map in Hin. destruct Hin as [c [_ Hc]].
  unfold replace_tab in Hc.
  destruct (N.eqb_spec c TAB) as [Heq | Hne].
  - simpl in Hc. intuition discriminate.
  - destruct Hc as [Hc | []]. now apply Hne.
Qed.

Lemma occurrences_cons (c x : char) (s : str) :
  occurrences c (x :: s)
  = ((if (c =? x)%N then 1 else 0) + occurrences c s)%nat.
Proof.
  unfold occurrences. cbn [filter]. destruct (c =? x); reflexivity.
Qed.

Lemma occurrences_app (c : char) (a b : str) :
  occurrences c (a ++ b) = (occurrences c a + occurrences c b)%nat.
Proof. unfold occurrences. now rewrite filter_app, length_app. Qed.

Lemma replace_tab_length (s : str) :
  List.length (flat_map replace_tab s)
  = (List.length s + 3 * occurrences TAB s)%nat.
Proof.
  induction s as [| c s IH]; [reflexivity |].
  cbn [flat_map]. rewrite length_app, IH, occurrences_cons.
  unfold replace_tab. rewrite (N.eqb_sym TAB c).
  destruct (c =? TAB); cbn [List.length underscores]; lia.
Qed.

Lemma replace_tab_underscores (s : str) :
  occurrences UNDERSCORE (flat_map replace_tab s)
  = (occurrences UNDERSCORE s + 4 * occurrences TAB s)%nat.
Proof.
  induction s as [| c s IH]; [reflexivity |].
  cbn [flat_map]. rewrite occurrences_app, IH, !occurrences_cons.
  unfold replace_tab. rewrite (N.eqb_sym TAB c).
  destruct (N.eqb_spec c TAB) as [-> | Hc].
  - change (occurrences UNDERSCORE underscores) with 4%nat.
    change (UNDERSCORE =? TAB) with false. cbv iota. lia.
  - rewrite occurrences_cons. change (occurrences UNDERSCORE []) with 0%nat.
    lia.
Qed.

Section SanitizeFacts.

Variable U : Unicode.Database.

Abbreviation sanitize_text := (ProcessTextSanitizer_sanitize U).

Lemma sanitize_unfold (text : str) :
  sanitize_text text = flat_map replace_tab (str_lower U text).
Proof. apply str_translate_tab. Qed.

Lemma sanitize_no_tab (text : str) : ~ In TAB (sanitize_text text).
Proof. rewrite sanitize_unfold. apply replace_tab_no_tab. Qed.

Lemma sanitize_app (a b : str) :
  ~ In CAPITAL_SIGMA (a ++ b) ->
  sanitize_text (a ++ b) = sanitize_text a ++ sanitize_text b.
Proof.
  intros H. rewrite !sanitize_unfold, str_lower_app by exact H.
  apply flat_map_app.
Qed.

Hypothesis laws : Unicode.Laws U.

Lemma underscore_lowercase : lowercase U UNDERSCORE.
Proof. apply (ascii_lowercase U laws); reflexivity. Qed.

Lemma replace_tab_lowercase (s : str) :
  Forall (lowercase U) s -> Forall (lowercase U) (flat_map replace_tab s).
Proof.
  intros Hs. induction Hs as [| c s Hc _ IH]; simpl.
  - constructor.
  - apply Forall_app. split; [| exact IH].
    unfold replace_tab. destruct (c =? TAB).
    + repeat constructor; apply underscore_lowercase.
    + repeat constructor; exact Hc.
Qed.

Lemma sanitize_lowercase (text : str) :
  Forall (lowercase U) (sanitize_text text).
Proof.
  rewrite sanitize_unfold.
  apply replace_tab_lowercase, str_lower_lowercase, laws.
Qed.

Lemma str_lower_sanitize (text : str) :
  str_lower U (sanitize_text text) = sanitize_text text.
Proof. apply lowercase_fixed, sanitize_lowercase. Qed.

Lemma sanitize_sanitize (text : str) :
  sanitize_text (sanitize_text text) = sanitize_text text.
Proof.
  rewrite (sanitize_unfold (sanitize_text text)), str_lower_sanitize.
  apply replace_tab_free, sanitize_no_tab.
Qed.

Lemma sanitize_sigma_free (text : str) :
  ~ In CAPITAL_SIGMA (sanitize_text text).
Proof.
  intros Hin.
  pose proof (sanitize_lowercase text) as H.
  rewrite Forall_forall in H. apply H, lowercase_iff in Hin.
  now destruct Hin.
Qed.

End SanitizeFacts.

(** ** Dictionaries *)

Lemma mem_In (k : char) (ks : list char) : mem k ks = true <-> In k ks.
Proof.
  unfold mem. rewrite existsb_exists. split.
  - intros [x [Hx Heq]]. apply N.eqb_eq in Heq. now subst.
  - intros H. exists k. split; [exact H | apply N.eqb_refl].
Qed.

Lemma mem_false (k : char) (ks : list char) : mem k ks = false <-> ~ In k ks.
Proof.
  rewrite <- mem_In. destruct (mem k ks); split; congruence.
Qed.

Lemma mem_cons (k x : char) (ks : list char) :
  mem k (x :: ks) = (k =? x) || mem k ks.
Proof. reflexivity. Qed.

Lemma distinct_NoDup (ks : list char) : distinct ks = true <-> NoDup ks.
Proof.
  induction ks as [| k ks IH]; simpl.
  - split; [constructor | reflexivity].
  - rewrite andb_true_iff, negb_true_iff, IH.
    change (existsb (N.eqb k) ks) with (mem k ks). rewrite mem_false.
    split.
    + intros [H1 H2]. now constructor.
    + intros H. inversion H. now split.
Qed.

Lemma dict_get_mem (d : dict) (k : char) :
  dict_get d k
  = if mem k (dict_keys d) then Some (dict_get_default d k 0) else None.
Proof.
  unfold dict_get_default.
  induction d as [| [k' v] d IH]; [reflexivity |].
  cbn [dict_get dict_keys map fst]. rewrite mem_cons, (N.eqb_sym k k').
  destruct (k' =? k); [reflexivity |].
  cbn [orb]. exact IH.
Qed.

Lemma dict_get_setitem (d : dict) (k k' : char) (v : Z) :
  dict_get (dict_setitem d k v) k'
  = if k =? k' then Some v else dict_get d k'.
Proof.
  induction d as [| [x w] d IH]; cbn [dict_setitem dict_get].
  - reflexivity.
  - destruct (N.eqb_spec x k) as [-> | Hx]; cbn [dict_get].
    + destruct (k =? k'); reflexivity.
    + rewrite IH. destruct (N.eqb_spec x k') as [-> | Hx'].
      * destruct (N.eqb_spec k k'); [congruence | reflexivity].
      * reflexivity.
Qed.

Lemma dict_get_default_setitem (d : dict) (k k' : char) (v : Z) :
  dict_get_default (dict_setitem d k v) k' 0
  = if k =? k' then v else dict_get_default d k' 0.
Proof.
  unfold dict_get_default. rewrite dict_get_setitem.
  destruct (k =? k'); reflexivity.
Qed.

Lemma dict_keys_setitem (d : dict) (k : char) (v : Z) :
  dict_keys (dict_setitem d k v) = add_key (dict_keys d) k.
Proof.
  unfold add_key.
  induction d as [| [x w] d IH]; cbn [dict_setitem dict_keys map fst].
  - reflexivity.
  - rewrite mem_cons, (N.eqb_sym k x).
    destruct (x =? k); cbn [orb dict_keys map fst]; [reflexivity |].
    fold (dict_keys (dict_setitem d k v)). rewrite IH.
    fold (dict_keys d). destruct (mem k (dict_keys d)); reflexivity.
Qed.

Lemma total_setitem (d : dict) (k : char) (v : Z) :
  total (dict_setitem d k v) = (total d - dict_get_default d k 0 + v)%Z.
Proof.
  unfold total, dict_get_default.
  induction d as [| [x w] d IH];
    cbn [dict_setitem dict_values map snd fold_right dict_get].
  - lia.
  - destruct (x =? k); cbn [dict_values map snd fold_right].
    + lia.
    + fold (dict_values (dict_setitem d k v)). fold (dict_values d).
      rewrite IH. lia.
Qed.

Lemma In_setitem (d : dict) (k : char) (v : Z) (item : char * Z) :
  In item (dict_setitem d k v) -> In item d \/ item = (k, v).
Proof.
  induction d as [| [x w] d IH]; cbn [dict_setitem].
  - intros [<- | []]. now right.
  - destruct (N.eqb_spec x k) as [-> | Hx].
    + intros [<- | H]; [now right | left; now right].
    + intros [<- | H]; [left; now left |].
      destruct (IH H); [left; now right | now right].
Qed.

Lemma dict_get_default_absent (d : dict) (k : char) :
  mem k (dict_keys d) = false -> dict_get_default d k 0 = 0%Z.
Proof.
  intros H. unfold dict_get_default. now rewrite dict_get_mem, H.
Qed.

(** Two dictionaries with the same key order and the same counts are the
    same list. *)
Lemma dict_ext (a b : dict) :
  dict_wf a -> dict_keys a = dict_keys b ->
  (forall k, dict_get_default a k 0 = dict_get_default b k 0) ->
  a = b.
Proof.
  unfold dict_wf. revert b.
  induction a as [| [k v] a IH]; intros [| [k' v'] b] Hwf Hkeys Hget;
    try discriminate Hkeys; [reflexivity |].
  cbn [dict_keys map fst] in Hkeys. injection Hkeys as <- Hkeys.
  cbn [dict_keys map fst distinct] in Hwf.
  apply andb_true_iff in Hwf. destruct Hwf as [Hk Hwf].
  apply negb_true_iff in Hk. change (mem k (dict_keys a) = false) in Hk.
  assert (Hv : v = v').
  { specialize (Hget k). unfold dict_get_default in Hget.
    cbn [dict_get] in Hget. now rewrite N.eqb_refl in Hget. }
  subst v'. change (dict_keys a = dict_keys b) in Hkeys.
  f_equal. apply IH; [exact Hwf | exact Hkeys |].
  intros x. destruct (N.eqb_spec k x) as [<- | Hx].
  - rewrite !dict_get_default_absent; [reflexivity | | exact Hk].
    now rewrite <- Hkeys.
  - specialize (Hget x). unfold dict_get_default in Hget |- *.
    cbn [dict_get] in Hget. apply N.eqb_neq in Hx. now rewrite Hx in Hget.
Qed.

(** ** Key order *)

Lemma mem_app (k : char) (a b : list char) :
  mem k (a ++ b) = mem k a || mem k b.
Proof. apply existsb_app. Qed.

Lemma mem_add_key (k x : char) (ks : list char) :
  mem k (add_key ks x) = (k =? x) || mem k ks.
Proof.
  unfold add_key. destruct (mem x ks) eqn:Hx.
  - destruct (N.eqb_spec k x) as [-> | _]; [now rewrite Hx | reflexivity].
  - rewrite mem_app, mem_cons. cbn [mem existsb].
    rewrite orb_false_r. apply orb_comm.
Qed.

Lemma extend_snoc (ks l : list char) (x : char) :
  extend ks (l ++ [x]) = add_key (extend ks l) x.
Proof. unfold extend. now rewrite fold_left_app. Qed.

Lemma mem_extend (k : char) (ks l : list char) :
  mem k (extend ks l) = mem k ks || mem k l.
Proof.
  revert ks. induction l as [| x l IH]; intros ks; cbn [extend fold_left].
  - cbn [mem existsb]. now rewrite orb_false_r.
  - fold (extend (add_key ks x) l). rewrite IH, mem_add_key, mem_cons.
    destruct (k =? x), (mem k ks), (mem k l); reflexivity.
Qed.

Lemma distinct_add_key (ks : list char) (x : char) :
  distinct ks = true -> distinct (add_key ks x) = true.
Proof.
  unfold add_key. destruct (mem x ks) eqn:Hx; [tauto |].
  rewrite !distinct_NoDup. intros H.
  apply (Permutation_NoDup (l := x :: ks)).
  - apply Permutation_cons_append.
  - constructor; [now apply mem_false | exact H].
Qed.

Lemma distinct_extend (ks l : list char) :
  distinct ks = true -> distinct (extend ks l) = true.
Proof.
  revert ks. induction l as [| x l IH]; intros ks H; [exact H |].
  apply IH, distinct_add_key, H.
Qed.

Lemma extend_extend (ks l : list char) :
  extend ks (extend [] l) = extend ks l.
Proof.
  induction l as [| x l IH] using rev_ind; [reflexivity |].
  rewrite (extend_snoc [] l x), (extend_snoc ks l x).
  unfold add_key at 1. rewrite mem_extend.
  change (mem x []) with false. cbn [orb].
  destruct (mem x l) eqn:Hx.
  - rewrite IH. unfold add_key. now rewrite mem_extend, Hx, orb_true_r.
  - now rewrite extend_snoc, IH.
Qed.

Lemma extend_distinct (ks : list char) :
  distinct ks = true -> extend [] ks = ks.
Proof.
  induction ks as [| x l IH] using rev_ind; intros H; [reflexivity |].
  apply distinct_NoDup in H.
  pose proof (NoDup_remove_1 l [] x H) as Hl.
  pose proof (NoDup_remove_2 l [] x H) as Hx.
  rewrite app_nil_r in Hl, Hx.
  rewrite extend_snoc, IH by now apply distinct_NoDup.
  unfold add_key. apply mem_false in Hx. now rewrite Hx.
Qed.

(** ** Accumulating counts *)

Lemma dict_keys_accumulate (s : dict) (items : list (char * Z)) :
  dict_keys (accumulate s items) = extend (dict_keys s) (map fst items).
Proof.
  revert s. induction items as [| item items IH]; intros s; [reflexivity |].
  cbn [accumulate fold_left map extend].
  fold (accumulate (add_count s item) items).
  rewrite IH. unfold add_count. now rewrite dict_keys_setitem.
Qed.

Lemma dict_get_default_accumulate (s : dict) (items : list (char * Z))
  (k : char) :
  dict_get_default (accumulate s items) k 0
  = (dict_get_default s k 0 + weight k items)%Z.
Proof.
  revert s. induction items as [| [x n] items IH]; intros s.
  - cbn [accumulate fold_left weight fold_right]. lia.
  - cbn [accumulate fold_left weight fold_right fst snd].
    fold (accumulate (add_count s (x, n)) items). fold (weight k items).
    rewrite IH. unfold add_count. cbn [fst snd].
    rewrite dict_get_default_setitem.
    destruct (N.eqb_spec x k) as [-> | _]; lia.
Qed.

Lemma weight_absent (k : char) (d : dict) :
  mem k (dict_keys d) = false -> weight k d = 0%Z.
Proof.
  induction d as [| [x v] d IH]; [reflexivity |].
  cbn [dict_keys map fst weight fold_right snd]. rewrite mem_cons.
  intros H. apply orb_false_iff in H. destruct H as [Hx Hd].
  rewrite N.eqb_sym, Hx. exact (IH Hd).
Qed.

Lemma weight_wf (k : char) (d : dict) :
  dict_wf d -> weight k d = dict_get_default d k 0.
Proof.
  unfold dict_wf, dict_get_default.
  induction d as [| [x v] d IH]; [reflexivity |].
  cbn [dict_keys map fst distinct weight fold_right snd dict_get].
  intros H. apply andb_true_iff in H. destruct H as [Hx Hd].
  apply negb_true_iff in Hx. fold (weight k d).
  destruct (N.eqb_spec x k) as [-> | _].
  - change (mem k (dict_keys d) = false) in Hx.
    rewrite (weight_absent k d Hx). lia.
  - exact (IH Hd).
Qed.

Lemma weight_ones (k : char) (l : str) :
  weight k (map (fun c => (c, 1%Z)) l) = Z.of_nat (occurrences k l).
Proof.
  induction l as [| x l IH]; [reflexivity |].
  rewrite occurrences_cons. cbn [map weight fold_right fst snd].
  fold (weight k (map (fun c => (c, 1%Z)) l)). rewrite IH, (N.eqb_sym x k).
  destruct (k =? x); lia.
Qed.

Lemma count_elements_accumulate (m : Counter) (l : str) :
  count_elements m l = accumulate m (map (fun c => (c, 1%Z)) l).
Proof.
  revert m. induction l as [| x l IH]; intros m; [reflexivity |].
  cbn [count_elements accumulate fold_left map].
  fold (count_elements (dict_setitem m x (dict_get_default m x 0 + 1)%Z) l).
  rewrite IH. unfold accumulate, add_count at 2. cbn [fst snd].
  now rewrite Z.add_comm.
Qed.

Lemma count_elements_app (m : Counter) (a b : str) :
  count_elements m (a ++ b) = count_elements (count_elements m a) b.
Proof. unfold count_elements. apply fold_left_app. Qed.

Lemma dict_keys_count_elements (m : Counter) (l : str) :
  dict_keys (count_elements m l) = extend (dict_keys m) l.
Proof.
  rewrite count_elements_accumulate, dict_keys_accumulate, map_map.
  cbn [fst]. now rewrite map_id.
Qed.

Lemma dict_get_default_count_elements (m : Counter) (l : str) (k : char) :
  dict_get_default (count_elements m l) k 0
  = (dict_get_default m k 0 + Z.of_nat (occurrences k l))%Z.
Proof.
  now rewrite count_elements_accumulate, dict_get_default_accumulate,
    weight_ones.
Qed.

Lemma count_elements_wf (m : Counter) (l : str) :
  dict_wf m -> dict_wf (count_elements m l).
Proof.
  unfold dict_wf. rewrite dict_keys_count_elements. apply distinct_extend.
Qed.

Lemma Counter_of_wf (l : str) : dict_wf (Counter_of l).
Proof. now apply count_elements_wf. Qed.

Lemma total_count_elements (m : Counter) (l : str) :
  total (count_elements m l) = (total m + Z.of_nat (List.length l))%Z.
Proof.
  revert m. induction l as [| x l IH]; intros m.
  - cbn [count_elements fold_left List.length]. lia.
  - cbn [count_elements fold_left].
    fold (count_elements (dict_setitem m x (dict_get_default m x 0 + 1)%Z) l).
    rewrite IH, total_setitem. cbn [List.length]. lia.
Qed.

(** ** [dict.update] and [Counter.update] *)

Lemma dict_keys_dict_update (d other : dict) :
  dict_keys (dict_update d other) = extend (dict_keys d) (dict_keys other).
Proof.
  unfold dict_update, dict_items. revert d.
  induction other as [| [k v] other IH]; intros d; [reflexivity |].
  cbn [fold_left fst snd dict_keys map extend].
  fold (dict_keys other). fold (extend (add_key (dict_keys d) k) (dict_keys other)).
  now rewrite IH, dict_keys_setitem.
Qed.

Lemma dict_get_dict_update (d other : dict) (k : char) :
  dict_wf other ->
  dict_get (dict_update d other) k
  = match dict_get other k with
    | Some v => Some v
    | None => dict_get d k
    end.
Proof.
  unfold dict_wf, dict_update, dict_items. revert d.
  induction other as [| [x v] other IH]; intros d Hwf; [reflexivity |].
  cbn [dict_keys map fst distinct] in Hwf.
  apply andb_true_iff in Hwf. destruct Hwf as [Hx Hwf].
  apply negb_true_iff in Hx. change (mem x (dict_keys other) = false) in Hx.
  cbn [fold_left fst snd dict_get]. rewrite (IH _ Hwf), dict_get_setitem.
  destruct (N.eqb_spec x k) as [<- | _]; [| reflexivity].
  now rewrite (dict_get_mem other x), Hx.
Qed.

Lemma dict_update_empty (other : dict) :
  dict_wf other -> dict_update [] other = other.
Proof.
  intros Hwf. apply dict_ext.
  - unfold dict_wf. rewrite dict_keys_dict_update. now apply distinct_extend.
  - rewrite dict_keys_dict_update. now apply extend_distinct.
  - intros k. unfold dict_get_default.
    rewrite (dict_get_dict_update [] other k Hwf).
    now destruct (dict_get other k).
Qed.

Lemma Counter_update_accumulate (self other : Counter) :
  dict_wf other -> Counter_update self other = accumulate self other.
Proof.
  intros Hwf. destruct self as [| item self]; [| reflexivity].
  cbn [Counter_update]. rewrite (dict_update_empty other Hwf).
  symmetry. apply dict_ext.
  - unfold dict_wf. rewrite dict_keys_accumulate. now apply distinct_extend.
  - rewrite dict_keys_accumulate. now apply extend_distinct.
  - intros k. rewrite dict_get_default_accumulate, (weight_wf k other Hwf).
    reflexivity.
Qed.

Lemma Counter_update_wf (self other : Counter) :
  dict_wf self -> dict_wf other -> dict_wf (Counter_update self other).
Proof.
  intros Hs Ho. rewrite (Counter_update_accumulate self other Ho).
  unfold dict_wf. rewrite dict_keys_accumulate. now apply distinct_extend.
Qed.

Lemma dict_get_Counter_update (self other : Counter) (k : char) :
  dict_wf other ->
  dict_get (Counter_update self other) k
  = option_sum (dict_get self k) (dict_get other k).
Proof.
  intros Hwf. rewrite (Counter_update_accumulate self other Hwf).
  rewrite (dict_get_mem (accumulate self other)), dict_keys_accumulate,
    mem_extend, dict_get_default_accumulate, (weight_wf k other Hwf).
  rewrite (dict_get_mem self k), (dict_get_mem other k).
  fold (dict_keys other).
  destruct (mem k (dict_keys self)) eqn:Hs, (mem k (dict_keys other)) eqn:Ho;
    cbn [orb option_sum]; try reflexivity.
  - f_equal. lia.
  - rewrite (dict_get_default_absent other k Ho). f_equal. lia.
  - rewrite (dict_get_default_absent self k Hs). reflexivity.
Qed.

(** Adding the counter of a chunk is counting the chunk into the
    accumulator, key order included. *)
Lemma Counter_update_Counter_of (acc : Counter) (l : str) :
  dict_wf acc -> Counter_update acc (Counter_of l) = count_elements acc l.
Proof.
  intros Hacc.
  rewrite (Counter_update_accumulate acc _ (Counter_of_wf l)).
  apply dict_ext.
  - unfold dict_wf. rewrite dict_keys_accumulate. now apply distinct_extend.
  - rewrite dict_keys_accumulate, dict_keys_count_elements.
    change (map fst (Counter_of l)) with (dict_keys (count_elements [] l)).
    rewrite dict_keys_count_elements. apply extend_extend.
  - intros k.
    rewrite dict_get_default_accumulate, (weight_wf k _ (Counter_of_wf l)).
    unfold Counter_of, Counter_update_iterable, Counter_new.
    rewrite !dict_get_default_count_elements. reflexivity.
Qed.

Lemma fold_Counter_update (acc : Counter) (ls : list str) :
  dict_wf acc ->
  fold_left Counter_update (map Counter_of ls) acc
  = count_elements acc (concat ls).
Proof.
  revert acc. induction ls as [| l ls IH]; intros acc Hacc; [reflexivity |].
  cbn [map fold_left concat].
  rewrite (Counter_update_Counter_of acc l Hacc), count_elements_app.
  apply IH, count_elements_wf, Hacc.
Qed.

Lemma fold_Counter_update_iterable (acc : Counter) (ls : list str) :
  fold_left Counter_update_iterable ls acc = count_elements acc (concat ls).
Proof.
  revert acc. induction ls as [| l ls IH]; intros acc; [reflexivity |].
  cbn [fold_left concat]. rewrite count_elements_app. apply IH.
Qed.

(** ** The statistics pass *)

Section StatisticsFacts.

Variable U : Unicode.Database.

Lemma combined_statistics_count (s : TextSanitizer) (chunks : list str) :
  combined_statistics U s chunks
  = count_elements [] (concat (map (letters U s) chunks)).
Proof.
  unfold combined_statistics, imap, Counter_new.
  rewrite map_map.
  rewrite <- (fold_Counter_update [] (map (letters U s) chunks)) by reflexivity.
  now rewrite map_map.
Qed.

Lemma calculate_count (text : list str) :
  AlphabetStatisticsCalculator_calculate U text
  = count_elements []
      (concat (map (fun chunk => filter (str_isalpha U) (str_lower U chunk))
                   text)).
Proof.
  unfold AlphabetStatisticsCalculator_calculate, dict_copy, dict_items,
    Counter_new.
  rewrite <- fold_Counter_update_iterable.
  generalize (@nil (char * Z)).
  induction text as [| chunk text IH]; intros acc; [reflexivity |].
  cbn [map fold_left]. apply IH.
Qed.

End StatisticsFacts.

(** ** More on lowercasing and counting *)

Lemma occurrences_absent (c : char) (s : str) :
  ~ In c s -> occurrences c s = 0%nat.
Proof.
  induction s as [| x s IH]; intros H; [reflexivity |].
  rewrite occurrences_cons, IH by (intros Hin; apply H; now right).
  destruct (N.eqb_spec c x) as [-> | _]; [| reflexivity].
  elim H. now left.
Qed.

Lemma occurrences_present (c : char) (s : str) :
  In c s -> (0 < occurrences c s)%nat.
Proof.
  induction s as [| x s IH]; intros H; [destruct H |].
  rewrite occurrences_cons.
  destruct (N.eqb_spec c x) as [_ | Hne]; [lia |].
  destruct H as [-> | H]; [now elim Hne |].
  cbn [Nat.add]. now apply IH.
Qed.

Lemma filter_concat {A : Type} (f : A -> bool) (ls : list (list A)) :
  filter f (concat ls) = concat (map (filter f) ls).
Proof.
  induction ls as [| l ls IH]; [reflexivity |].
  cbn [concat map]. now rewrite filter_app, IH.
Qed.

Lemma In_dict_get (d : dict) (k : char) (v : Z) :
  dict_wf d -> In (k, v) d -> dict_get d k = Some v.
Proof.
  unfold dict_wf.
  induction d as [| [x w] d IH]; intros Hwf Hin; [destruct Hin |].
  cbn [dict_keys map fst distinct] in Hwf.
  apply andb_true_iff in Hwf. destruct Hwf as [Hx Hwf].
  apply negb_true_iff in Hx. change (mem x (dict_keys d) = false) in Hx.
  cbn [dict_get]. destruct Hin as [Heq | Hin].
  - injection Heq as -> ->. now rewrite N.eqb_refl.
  - destruct (N.eqb_spec x k) as [-> | _]; [| now apply IH].
    apply mem_false in Hx. elim Hx.
    change (In k (map fst d)). now apply (in_map fst d (k, v)).
Qed.

(** An item of a counter built from scratch is a character of the text
    with the number of its occurrences. *)
Lemma In_count_elements (l : str) (k : char) (v : Z) :
  In (k, v) (count_elements [] l) ->
  In k l /\ v = Z.of_nat (occurrences k l) /\ (0 < v)%Z.
Proof.
  intros Hin.
  assert (Hk : In k l).
  { apply (in_map fst) in Hin. cbn [fst] in Hin.
    change (In k (dict_keys (count_elements [] l))) in Hin.
    rewrite dict_keys_count_elements in Hin.
    apply mem_In in Hin. rewrite mem_extend in Hin.
    now apply mem_In. }
  assert (Hv : v = Z.of_nat (occurrences k l)).
  { apply In_dict_get in Hin; [| now apply count_elements_wf].
    pose proof (dict_get_default_count_elements [] l k) as H.
    unfold dict_get_default at 1 in H. rewrite Hin in H.
    rewrite H. reflexivity. }
  split; [exact Hk |]. split; [exact Hv |].
  pose proof (occurrences_present k l Hk). lia.
Qed.

Section LowerTabs.

Variable U : Unicode.Database.
Hypothesis laws : Unicode.Laws U.

Lemma lower_char_tabs (before after : str) (c : char) :
  occurrences TAB (lower_char U before c after) = occurrences TAB [c].
Proof.
  unfold lower_char, handle_capital_sigma.
  destruct (N.eqb_spec c CAPITAL_SIGMA) as [-> | Hc].
  - destruct (final_sigma U before after); reflexivity.
  - destruct (N.eqb_spec c TAB) as [-> | Hne].
    + now rewrite (Unicode.ascii_lower_law U laws TAB).
    + rewrite !occurrences_absent; [reflexivity | |].
      * intros [H | []]. now apply Hne.
      * intros H. now apply Hne, (Unicode.lower_tab_law U laws).
Qed.

Lemma str_lower_tabs (s : str) :
  occurrences TAB (str_lower U s) = occurrences TAB s.
Proof.
  unfold str_lower. generalize (@nil char).
  induction s as [| c s IH]; intros before; [reflexivity |].
  cbn [lower_from]. rewrite occurrences_app, IH, lower_char_tabs.
  now rewrite <- occurrences_app.
Qed.

Lemma sanitize_concat (chunks : list str) :
  ~ In CAPITAL_SIGMA (concat chunks) ->
  ProcessTextSanitizer_sanitize U (concat chunks)
  = concat (map (ProcessTextSanitizer_sanitize U) chunks).
Proof.
  induction chunks as [| chunk chunks IH]; intros H; [reflexivity |].
  cbn [concat map] in *. rewrite sanitize_app by exact H.
  f_equal. apply IH. intros Hin. apply H, in_or_app. now right.
Qed.

Lemma letters_sanitized (chunk : str) :
  letters U (ProcessTextSanitizer U) chunk
  = filter (str_isalpha U) (ProcessTextSanitizer_sanitize U chunk).
Proof.
  unfold letters. cbn [sanitize ProcessTextSanitizer].
  now rewrite (str_lower_sanitize U laws).
Qed.

Lemma letters_concat (chunks : list str) :
  concat (map (letters U (ProcessTextSanitizer U)) chunks)
  = filter (str_isalpha U)
      (concat (map (ProcessTextSanitizer_sanitize U) chunks)).
Proof.
  rewrite filter_concat, map_map. f_equal.
  apply map_ext. exact letters_sanitized.
Qed.

End LowerTabs.

(** * The claims *)

(** ** The sanitizer: C2, C5 *)

(** C5: for every text [x], sanitizing twice is the same as sanitizing
    once: [sanitize(sanitize(x)) == sanitize(x)], whatever Unicode tables
    with the properties [Unicode.Laws] the lowercasing runs on. *)
Theorem sanitize_idempotent (U : Unicode.Database) (laws : Unicode.Laws U)
  (x : str) :
  ProcessTextSanitizer_sanitize U (ProcessTextSanitizer_sanitize U x)
  = ProcessTextSanitizer_sanitize U x.
Proof. exact (sanitize_sanitize U laws x). Qed.

Lemma sanitize_idempotent_witness :
  Unicode.Laws Fragment.ucd /\
  ProcessTextSanitizer_sanitize Fragment.ucd
    (ProcessTextSanitizer_sanitize Fragment.ucd hello_world)
  = ProcessTextSanitizer_sanitize Fragment.ucd hello_world.
Proof.
  split; [exact fragment_laws |].
  exact (sanitize_idempotent Fragment.ucd fragment_laws hello_world).
Defined.

Lemma hello_world_sanitized (U : Unicode.Database) (laws : Unicode.Laws U) :
  ProcessTextSanitizer_sanitize U hello_world = lit "hello____world".
Proof.
  unfold ProcessTextSanitizer_sanitize.
  rewrite (str_lower_ascii U laws) by reflexivity. reflexivity.
Qed.

Lemma hello_world_statistics (U : Unicode.Database) (laws : Unicode.Laws U) :
  calculate_statistics_chunk U (lit "hello____world")
  = [(ch "h", 1); (ch "e", 1); (ch "l", 3); (ch "o", 2);
     (ch "w", 1); (ch "r", 1); (ch "d", 1)]%Z.
Proof.
  unfold calculate_statistics_chunk.
  rewrite (str_lower_ascii U laws) by reflexivity.
  rewrite (filter_isalpha_ascii U laws) by reflexivity.
  reflexivity.
Qed.



(** ** The statistics: C3, C6, C7, C10 *)

(** C3: for every sequence of chunks, the counts of the merged statistics
    add up to the number of alphabetic characters of the sanitized text,
    the concatenation of the sanitized chunks (Unicode tables with the
    properties [Unicode.Laws]). *)
Theorem statistics_total_is_alphabetic_count (U : Unicode.Database)
  (laws : Unicode.Laws U) (chunks : list str) :
  total (combined_statistics U (ProcessTextSanitizer U) chunks)
  = alphabetic_count U
      (concat (map (ProcessTextSanitizer_sanitize U) chunks)).
Proof.
  rewrite combined_statistics_count, total_count_elements.
  rewrite (letters_concat U laws). unfold alphabetic_count, total.
  cbn [dict_values map fold_right]. lia.
Qed.

Lemma statistics_total_is_alphabetic_count_witness :
  Unicode.Laws Fragment.ucd /\
  total (combined_statistics Fragment.ucd (ProcessTextSanitizer Fragment.ucd)
           [lit "Hello"; [TAB]; lit "World"])
  = alphabetic_count Fragment.ucd
      (concat (map (ProcessTextSanitizer_sanitize Fragment.ucd)
                   [lit "Hello"; [TAB]; lit "World"])).
Proof.
  split; [exact fragment_laws |].
  exact (statistics_total_is_alphabetic_count Fragment.ucd fragment_laws
           [lit "Hello"; [TAB]; lit "World"]).
Defined.

Lemma ascii_tolower_ascii (s : str) :
  forallb (fun c => c <? 128) s = true ->
  forallb (fun c => c <? 128) (map Unicode.ascii_tolower s) = true.
Proof.
  rewrite !forallb_forall. intros Hs c Hc.
  apply in_map_iff in Hc. destruct Hc as [x [<- Hx]].
  apply Hs in Hx. unfold Unicode.ascii_tolower.
  apply N.ltb_lt in Hx. apply N.ltb_lt. split_comparisons; simpl; lia.
Qed.

(** The letters counted in an ASCII chunk are among [a] to [z]. *)
Lemma In_letters_ascii (U : Unicode.Database) (laws : Unicode.Laws U)
  (k : char) (chunk : str) :
  forallb (fun c => c <? 128) chunk = true ->
  In k (filter (str_isalpha U) (str_lower U chunk)) ->
  ch "a" <= k <= ch "z".
Proof.
  intros Hascii Hin.
  rewrite (str_lower_ascii U laws chunk Hascii) in Hin.
  rewrite (filter_isalpha_ascii U laws) in Hin
    by now apply ascii_tolower_ascii.
  apply filter_In in Hin. destruct Hin as [Hin Halpha].
  apply in_map_iff in Hin. destruct Hin as [c [<- _]].
  change (ch "a") with 97. change (ch "z") with 122.
  unfold Unicode.ascii_isalpha, Unicode.ascii_tolower in *.
  split_comparisons; simpl in *; try discriminate; lia.
Qed.

Lemma In_letters_lowercase (U : Unicode.Database) (laws : Unicode.Laws U)
  (k : char) (chunk : str) :
  In k (filter (str_isalpha U) (str_lower U chunk)) ->
  str_isalpha U k = true /\ lowercase U k.
Proof.
  intros Hin. apply filter_In in Hin. destruct Hin as [Hin Halpha].
  split; [exact Halpha |].
  pose proof (str_lower_lowercase U laws chunk) as H.
  rewrite Forall_forall in H. now apply H.
Qed.

Lemma wider_fragment_laws : Unicode.Laws WiderFragment.ucd.
Proof.
  constructor.
  - exact (Unicode.ascii_lower_law _ fragment_laws).
  - intros c Hc. cbn [Unicode.isalpha WiderFragment.ucd].
    unfold WiderFragment.isalpha.
    rewrite <- (Unicode.ascii_alpha_law _ fragment_laws c Hc).
    cbn [Unicode.isalpha Fragment.ucd].
    unfold UPSILON_HOOK, CJK_MIDDLE.
    destruct (N.eqb_spec c 0x3D2) as [-> | _]; [discriminate Hc |].
    destruct (N.eqb_spec c 0x4E2D) as [-> | _]; [discriminate Hc |].
    now rewrite !orb_false_r.
  - exact (Unicode.lower_stable_law _ fragment_laws).
  - exact (Unicode.lower_tab_law _ fragment_laws).
  - exact (Unicode.capital_sigma_law _ fragment_laws).
  - exact (Unicode.final_sigma_law _ fragment_laws).
Qed.

(** C10 as stated fails: the keys are the alphabetic characters of the
    lowercased chunk, and a letter without a lowercase form stays as it
    is.  The chunk of the uppercase letter U+03D2 and the caseless letter
    U+4E2D gives two keys, neither of which is a lowercase letter; the
    first is an uppercase one. *)
Lemma statistics_keys_need_not_be_lowercase :
  let chunk := [UPSILON_HOOK; CJK_MIDDLE] in
  Unicode.Laws WiderFragment.ucd
  /\ ProcessTextSanitizer_sanitize WiderFragment.ucd chunk = chunk
  /\ calculate_statistics_chunk WiderFragment.ucd
       (ProcessTextSanitizer_sanitize WiderFragment.ucd chunk)
     = [(UPSILON_HOOK, 1%Z); (CJK_MIDDLE, 1%Z)]
  /\ combined_statistics WiderFragment.ucd
       (ProcessTextSanitizer WiderFragment.ucd) [chunk]
     = [(UPSILON_HOOK, 1%Z); (CJK_MIDDLE, 1%Z)]
  /\ WiderFragment.islower UPSILON_HOOK = false
  /\ WiderFragment.isupper UPSILON_HOOK = true
  /\ WiderFragment.islower CJK_MIDDLE = false.
Proof.
  intros chunk. split; [exact wider_fragment_laws |].
  repeat split.
Qed.

(** C10, amended: every item [(k, v)] of a per-chunk counter, of the
    merged statistics of the pipeline and of the calculator's result has
    a key that is one alphabetic character which lowercasing leaves as it
    is, and a strictly positive count; in the counter of an ASCII chunk
    the keys are the lowercase letters [a] to [z] (Unicode tables with
    the properties [Unicode.Laws]). *)
Theorem statistics_items_lowercase_positive (U : Unicode.Database)
  (laws : Unicode.Laws U) (k : char) (v : Z) :
  (forall chunk,
      In (k, v) (calculate_statistics_chunk U chunk) ->
      str_isalpha U k = true /\ lowercase U k /\ (0 < v)%Z)
  /\ (forall chunks,
        In (k, v) (combined_statistics U (ProcessTextSanitizer U) chunks) ->
        str_isalpha U k = true /\ lowercase U k /\ (0 < v)%Z)
  /\ (forall text,
        In (k, v) (AlphabetStatisticsCalculator_calculate U text) ->
        str_isalpha U k = true /\ lowercase U k /\ (0 < v)%Z)
  /\ (forall chunk,
        forallb (fun c => c <? 128) chunk = true ->
        In (k, v) (calculate_statistics_chunk U chunk) ->
        ch "a" <= k <= ch "z").
Proof.
  split; [| split; [| split]].
  - intros chunk Hin. apply In_count_elements in Hin.
    destruct Hin as [Hk [_ Hv]].
    destruct (In_letters_lowercase U laws k chunk Hk). tauto.
  - intros chunks Hin. rewrite combined_statistics_count in Hin.
    apply In_count_elements in Hin. destruct Hin as [Hk [_ Hv]].
    apply in_concat in Hk. destruct Hk as [l [Hl Hk]].
    apply in_map_iff in Hl. destruct Hl as [chunk [<- _]].
    destruct (In_letters_lowercase U laws k _ Hk). tauto.
  - intros text Hin. rewrite calculate_count in Hin.
    apply In_count_elements in Hin. destruct Hin as [Hk [_ Hv]].
    apply in_concat in Hk. destruct Hk as [l [Hl Hk]].
    apply in_map_iff in Hl. destruct Hl as [chunk [<- _]].
    destruct (In_letters_lowercase U laws k _ Hk). tauto.
  - intros chunk Hascii Hin. apply In_count_elements in Hin.
    destruct Hin as [Hk _].
    exact (In_letters_ascii U laws k chunk Hascii Hk).
Qed.

Lemma statistics_items_lowercase_positive_witness :
  Unicode.Laws Fragment.ucd /\
  In (ch "l", 3%Z)
     (combined_statistics Fragment.ucd (ProcessTextSanitizer Fragment.ucd)
        [lit "HeL"; lit "lo" ++ [TAB] ++ lit "WorLd"]) /\
  str_isalpha Fragment.ucd (ch "l") = true /\
  lowercase Fragment.ucd (ch "l") /\ (0 < 3)%Z.
Proof.
  split; [exact fragment_laws |].
  assert (Hin : In (ch "l", 3%Z)
                  (combined_statistics Fragment.ucd
                     (ProcessTextSanitizer Fragment.ucd)
                     [lit "HeL"; lit "lo" ++ [TAB] ++ lit "WorLd"])).
  { vm_compute. right. right. now left. }
  split; [exact Hin |].
  exact (proj1 (proj2 (statistics_items_lowercase_positive Fragment.ucd
                         fragment_laws (ch "l") 3%Z)) _ Hin).
Defined.

Lemma option_sum_comm (x y : option Z) : option_sum x y = option_sum y x.
Proof. destruct x, y; cbn [option_sum]; f_equal; lia. Qed.

Lemma option_sum_assoc (x y z : option Z) :
  option_sum x (option_sum y z) = option_sum (option_sum x y) z.
Proof. destruct x, y, z; cbn [option_sum]; f_equal; lia. Qed.

(** C6: on dictionaries (distinct keys), [merge] is associative and
    commutative up to the dictionary comparison [==], and the empty
    mapping is its identity on both sides. *)
Theorem merge_associative_commutative_identity (a b c : Counter) :
  dict_wf a -> dict_wf b -> dict_wf c ->
  dict_eq (merge a (merge b c)) (merge (merge a b) c)
  /\ dict_eq (merge a b) (merge b a)
  /\ merge a Counter_new = a
  /\ merge Counter_new a = a.
Proof.
  intros Ha Hb Hc. unfold merge. repeat split.
  - intros k.
    rewrite dict_get_Counter_update by now apply Counter_update_wf.
    rewrite !dict_get_Counter_update by assumption.
    apply option_sum_assoc.
  - intros k. rewrite !dict_get_Counter_update by assumption.
    apply option_sum_comm.
  - now destruct a.
  - apply (dict_update_empty a Ha).
Qed.

Lemma merge_associative_commutative_identity_witness :
  let a := [(ch "h", 1); (ch "e", 2)]%Z in
  let b := [(ch "e", 1); (ch "l", 3)]%Z in
  let c := [(ch "l", 1); (ch "h", 5)]%Z in
  dict_wf a /\ dict_wf b /\ dict_wf c /\
  dict_eq (merge a (merge b c)) (merge (merge a b) c) /\
  dict_eq (merge a b) (merge b a) /\
  merge a Counter_new = a /\ merge Counter_new a = a.
Proof.
  intros a b c.
  assert (Ha : dict_wf a) by reflexivity.
  assert (Hb : dict_wf b) by reflexivity.
  assert (Hc : dict_wf c) by reflexivity.
  split; [exact Ha |]. split; [exact Hb |]. split; [exact Hc |].
  exact (merge_associative_commutative_identity a b c Ha Hb Hc).
Defined.

(** C7 as stated fails: a capital sigma is lowercased to the final form
    when a cased letter precedes it in the same chunk and to the medial
    form when it starts a chunk, so splitting between the two letters
    changes the statistics.  The file of the four bytes CE 91 CE A3, read
    in windows of two bytes and in one window of four, gives the two
    splittings. *)
Lemma chunk_invariance_fails_at_capital_sigma :
  let text := [CAPITAL_ALPHA; CAPITAL_SIGMA] in
  let chunks := [[CAPITAL_ALPHA]; [CAPITAL_SIGMA]] in
  let file := fun _ : nat => FileContent [0xCE; 0x91; 0xCE; 0xA3] in
  Unicode.Laws Fragment.ucd
  /\ concat chunks = text
  /\ read (MemoryMappedFileInputReader 2 file) 0 = chunk_source chunks
  /\ read (MemoryMappedFileInputReader 4 file) 0 = chunk_source [text]
  /\ combined_statistics Fragment.ucd (ProcessTextSanitizer Fragment.ucd)
       chunks
     = [(SMALL_ALPHA, 1%Z); (SMALL_SIGMA, 1%Z)]
  /\ calculate_statistics_chunk Fragment.ucd
       (ProcessTextSanitizer_sanitize Fragment.ucd text)
     = [(SMALL_ALPHA, 1%Z); (FINAL_SIGMA, 1%Z)]
  /\ ~ dict_eq
        (combined_statistics Fragment.ucd (ProcessTextSanitizer Fragment.ucd)
           chunks)
        (calculate_statistics_chunk Fragment.ucd
           (ProcessTextSanitizer_sanitize Fragment.ucd text)).
Proof.
  intros text chunks file.
  split; [exact fragment_laws |].
  split; [reflexivity |]. split; [reflexivity |]. split; [reflexivity |].
  split; [reflexivity |]. split; [reflexivity |].
  intros H. specialize (H SMALL_SIGMA). discriminate H.
Qed.

(** C7, amended: for every text without the capital sigma U+03A3 and
    every way of splitting it into chunks, merging the statistics of the
    sanitized chunks gives the statistics of the sanitized text, with the
    keys in the same order (Unicode tables with the properties
    [Unicode.Laws]). *)
Theorem chunk_invariance_without_capital_sigma (U : Unicode.Database)
  (laws : Unicode.Laws U) (text : str) (chunks : list str) :
  concat chunks = text ->
  ~ In CAPITAL_SIGMA text ->
  combined_statistics U (ProcessTextSanitizer U) chunks
  = calculate_statistics_chunk U (ProcessTextSanitizer_sanitize U text).
Proof.
  intros <- Hsigma.
  rewrite combined_statistics_count, (letters_concat U laws).
  rewrite <- (sanitize_concat U chunks Hsigma).
  unfold calculate_statistics_chunk, Counter_of, Counter_update_iterable,
    Counter_new.
  now rewrite (str_lower_sanitize U laws).
Qed.

Lemma chunk_invariance_without_capital_sigma_witness :
  let chunks := [lit "Hel"; lit "lo" ++ [TAB]; lit "World"] in
  Unicode.Laws Fragment.ucd /\
  concat chunks = hello_world /\
  ~ In CAPITAL_SIGMA hello_world /\
  combined_statistics Fragment.ucd (ProcessTextSanitizer Fragment.ucd) chunks
  = calculate_statistics_chunk Fragment.ucd
      (ProcessTextSanitizer_sanitize Fragment.ucd hello_world).
Proof.
  intros chunks.
  assert (Hsplit : concat chunks = hello_world) by reflexivity.
  assert (Hsigma : ~ In CAPITAL_SIGMA hello_world)
    by (apply mem_false; reflexivity).
  split; [exact fragment_laws |]. split; [exact Hsplit |].
  split; [exact Hsigma |].
  exact (chunk_invariance_without_capital_sigma Fragment.ucd fragment_laws
           hello_world chunks Hsplit Hsigma).
Defined.

(** ** The pipeline: C1, C4, C8, C9 *)

Lemma process_first_read_raises (U : Unicode.Database) (reader : InputReader)
  (w : world) (e : exn) :
  raised (read reader 0) = Some e ->
  process U (text_processor U reader) w
  = Aborted e {| target_file := target_file w;
                 stdout := stdout w ++ printed (read reader 0) |}.
Proof.
  intros H. unfold process. cbn [input_reader text_processor].
  now rewrite H.
Qed.

Lemma process_first_read_returns (U : Unicode.Database)
  (reader : InputReader) (w : world) :
  raised (read reader 0) = None ->
  process U (text_processor U reader) w
  = FileOutputWriter_write
      (generator_map (ProcessTextSanitizer_sanitize U) (read reader 1))
      (combined_statistics U (ProcessTextSanitizer U)
         (yields (read reader 0)))
      w.
Proof.
  intros H. unfold process. cbn [input_reader text_processor].
  now rewrite H.
Qed.

(** The file a completed run leaves: the sanitized chunks of the second
    read, the header, one line per item of the statistics of the first
    read. *)
Lemma process_completed (U : Unicode.Database) (reader : InputReader) :
  raised (read reader 0) = None ->
  raised (read reader 1) = None ->
  let text :=
    concat (map (ProcessTextSanitizer_sanitize U) (yields (read reader 1)))
    ++ statistics_header
    ++ flat_map statistics_line
         (combined_statistics U (ProcessTextSanitizer U)
            (yields (read reader 0))) in
  process U (text_processor U reader) initial_world
  = Completed {| target_file := Some text; stdout := text |}.
Proof.
  intros H0 H1. rewrite (process_first_read_returns U reader _ H0).
  unfold FileOutputWriter_write. cbn [raised generator_map]. now rewrite H1.
Qed.

(** An exception of the second read arrives when the target file is
    already open: the chunks read so far stay in it. *)
Lemma process_second_read_raises (U : Unicode.Database)
  (reader : InputReader) (e : exn) :
  raised (read reader 0) = None ->
  raised (read reader 1) = Some e ->
  let chunks :=
    concat (map (ProcessTextSanitizer_sanitize U) (yields (read reader 1))) in
  process U (text_processor U reader) initial_world
  = Aborted e {| target_file := Some chunks;
                 stdout := chunks ++ printed (read reader 1) |}.
Proof.
  intros H0 H1. rewrite (process_first_read_returns U reader _ H0).
  unfold FileOutputWriter_write. cbn [raised generator_map]. now rewrite H1.
Qed.

(** The statistics lines follow the first occurrences of the letters in
    the sanitized chunks, read in chunk order. *)
Lemma combined_statistics_keys (U : Unicode.Database) (s : TextSanitizer)
  (chunks : list str) :
  dict_keys (combined_statistics U s chunks)
  = extend [] (concat (map (letters U s) chunks)).
Proof.
  now rewrite combined_statistics_count, dict_keys_count_elements.
Qed.

(** An empty input file is not an empty sequence of chunks: [mmap]
    refuses it and the run aborts before the target is opened. *)
Lemma empty_file_aborts (U : Unicode.Database) (db : nat -> db_response) :
  main U (Some "file"%string) (fun _ => FileContent []) db
  = Aborted ValueError_mmap initial_world.
Proof. reflexivity. Qed.

(** C1: on the input ["Hello\tWorld"] the run completes and the file holds
    the sanitized chunk, the header and the statistics lines in order of
    first occurrence, but the header reads [Count of alphabelt:], so the
    file is not the one the specified format prescribes. *)
Theorem output_header_is_misspelt :
  let reader := {| read := fun _ => chunk_source [hello_world] |} in
  let statistics :=
    [(ch "h", 1); (ch "e", 1); (ch "l", 3); (ch "o", 2);
     (ch "w", 1); (ch "r", 1); (ch "d", 1)]%Z in
  let o := process Fragment.ucd (text_processor Fragment.ucd reader)
             initial_world in
  o = Completed
        {| target_file :=
             Some (lit "hello____world" ++ [NEWLINE]
                   ++ lit "Count of alphabelt:" ++ [NEWLINE]
                   ++ flat_map statistics_line statistics);
           stdout :=
             lit "hello____world" ++ [NEWLINE]
             ++ lit "Count of alphabelt:" ++ [NEWLINE]
             ++ flat_map statistics_line statistics |}
  /\ flat_map statistics_line statistics
     = lit "h: 1" ++ [NEWLINE] ++ lit "e: 1" ++ [NEWLINE]
       ++ lit "l: 3" ++ [NEWLINE] ++ lit "o: 2" ++ [NEWLINE]
       ++ lit "w: 1" ++ [NEWLINE] ++ lit "r: 1" ++ [NEWLINE]
       ++ lit "d: 1" ++ [NEWLINE]
  /\ target_file (final_world o)
     <> Some (spec_output [lit "hello____world"] statistics).
Proof.
  intros reader statistics o.
  split; [reflexivity |]. split; [reflexivity |].
  intros H. vm_compute in H. discriminate H.
Qed.

(** C8: when both reads yield no chunk, the statistics are the empty
    mapping, the stream of sanitized chunks is empty, and the run
    completes, leaving only the header in the file; a database that
    returns zero rows is such a source. *)
Theorem empty_input_gives_empty_output (U : Unicode.Database)
  (reader : InputReader) :
  read reader 0 = chunk_source [] ->
  read reader 1 = chunk_source [] ->
  combined_statistics U (ProcessTextSanitizer U) (yields (read reader 0))
  = Counter_new
  /\ yields (generator_map (ProcessTextSanitizer_sanitize U) (read reader 1))
     = []
  /\ process U (text_processor U reader) initial_world
     = Completed {| target_file := Some statistics_header;
                    stdout := statistics_header |}
  /\ DatabaseInputReader_read (Rows []) = chunk_source []
  /\ forall file,
       main U (Some "db"%string) file (fun _ => Rows [])
       = Completed {| target_file := Some statistics_header;
                      stdout := statistics_header |}.
Proof.
  intros H0 H1. repeat split.
  - now rewrite H0.
  - now rewrite H1.
  - rewrite process_completed by (rewrite ?H0, ?H1; reflexivity).
    rewrite H0, H1. reflexivity.
Qed.

Lemma empty_input_gives_empty_output_witness :
  let reader := DatabaseInputReader (fun _ => Rows []) in
  read reader 0 = chunk_source [] /\
  read reader 1 = chunk_source [] /\
  process Fragment.ucd (text_processor Fragment.ucd reader) initial_world
  = Completed {| target_file := Some statistics_header;
                 stdout := statistics_header |}.
Proof.
  intros reader.
  assert (H0 : read reader 0 = chunk_source []) by reflexivity.
  assert (H1 : read reader 1 = chunk_source []) by reflexivity.
  split; [exact H0 |]. split; [exact H1 |].
  apply (empty_input_gives_empty_output Fragment.ucd reader H0 H1).
Defined.

(** The reduction does not depend on the order of the partial counters. *)

Lemma Counter_update_dict_eq (a a' x : Counter) :
  dict_wf x -> dict_eq a a' ->
  dict_eq (Counter_update a x) (Counter_update a' x).
Proof.
  intros Hx H k. rewrite !dict_get_Counter_update by exact Hx.
  now rewrite (H k).
Qed.

Lemma fold_Counter_update_dict_eq (l : list Counter) (a a' : Counter) :
  Forall dict_wf l -> dict_eq a a' ->
  dict_eq (fold_left Counter_update l a) (fold_left Counter_update l a').
Proof.
  intros Hl. revert a a'.
  induction Hl as [| x l Hx _ IH]; intros a a' H; [exact H |].
  cbn [fold_left]. apply IH, Counter_update_dict_eq; assumption.
Qed.

Lemma Counter_update_swap (a x y : Counter) :
  dict_wf x -> dict_wf y ->
  dict_eq (Counter_update (Counter_update a y) x)
          (Counter_update (Counter_update a x) y).
Proof.
  intros Hx Hy k. rewrite !dict_get_Counter_update by assumption.
  rewrite <- !option_sum_assoc. f_equal. apply option_sum_comm.
Qed.

Lemma fold_Counter_update_permutation (l l' : list Counter) :
  Permutation l l' -> Forall dict_wf l ->
  forall a a', dict_eq a a' ->
    dict_eq (fold_left Counter_update l a) (fold_left Counter_update l' a').
Proof.
  induction 1 as [| x l l' Hperm IH | x y l | l l' l'' H1 IH1 H2 IH2];
    intros Hwf a a' Ha.
  - exact Ha.
  - inversion Hwf; subst. cbn [fold_left].
    apply IH; [assumption |]. now apply Counter_update_dict_eq.
  - inversion Hwf as [| ? ? Hy Hwf']; subst.
    inversion Hwf' as [| ? ? Hx Hl]; subst.
    cbn [fold_left]. apply fold_Counter_update_dict_eq; [exact Hl |].
    intros k. rewrite (Counter_update_swap a x y Hx Hy k).
    apply Counter_update_dict_eq; [exact Hy |].
    now apply Counter_update_dict_eq.
  - intros k. rewrite (IH1 Hwf a a (fun _ => eq_refl) k).
    apply IH2; [| exact Ha].
    apply (Permutation_Forall H1 Hwf).
Qed.

Lemma statistics_chunks_wf (U : Unicode.Database) (chunks : list str) :
  Forall dict_wf (imap (calculate_statistics_chunk U) chunks).
Proof.
  apply Forall_forall. intros d Hd. unfold imap in Hd.
  apply in_map_iff in Hd. destruct Hd as [chunk [<- _]].
  apply Counter_of_wf.
Qed.

(** C9: when both reads yield the chunks [chunks], the file holds the
    chunks sanitized one after the other in their original order,
    followed by the statistics that the sequential calculator computes
    from the sanitized chunks; and adding up the partial counters in any
    other order gives a dictionary equal to these statistics. *)
Theorem output_is_sequential_whatever_the_schedule (U : Unicode.Database)
  (reader : InputReader) (chunks : list str) (partials : list Counter) :
  read reader 0 = chunk_source chunks ->
  read reader 1 = chunk_source chunks ->
  Permutation partials
    (imap (calculate_statistics_chunk U)
       (imap (sanitize_chunk (ProcessTextSanitizer U)) chunks)) ->
  let sequential_text := map (ProcessTextSanitizer_sanitize U) chunks in
  let sequential_statistics :=
    AlphabetStatisticsCalculator_calculate U sequential_text in
  process U (text_processor U reader) initial_world
  = FileOutputWriter_write (chunk_source sequential_text)
      sequential_statistics initial_world
  /\ target_file
       (final_world (process U (text_processor U reader) initial_world))
     = Some (concat sequential_text ++ statistics_header
             ++ flat_map statistics_line sequential_statistics)
  /\ combined_statistics U (ProcessTextSanitizer U) chunks
     = sequential_statistics
  /\ dict_eq (fold_left Counter_update partials Counter_new)
             sequential_statistics.
Proof.
  intros H0 H1 Hperm sequential_text sequential_statistics.
  assert (Hstat : combined_statistics U (ProcessTextSanitizer U) chunks
                  = sequential_statistics).
  { unfold sequential_statistics, sequential_text.
    rewrite combined_statistics_count, calculate_count, map_map.
    reflexivity. }
  assert (Hrun : process U (text_processor U reader) initial_world
                 = FileOutputWriter_write (chunk_source sequential_text)
                     sequential_statistics initial_world).
  { rewrite process_first_read_returns by now rewrite H0.
    rewrite H0, H1. cbn [yields chunk_source]. now rewrite Hstat. }
  split; [exact Hrun |]. split; [now rewrite Hrun |].
  split; [exact Hstat |].
  rewrite <- Hstat. unfold combined_statistics.
  apply fold_Counter_update_permutation.
  - exact Hperm.
  - apply (Permutation_Forall (Permutation_sym Hperm)).
    apply statistics_chunks_wf.
  - intros k. reflexivity.
Qed.

Lemma output_is_sequential_whatever_the_schedule_witness :
  let chunks := [lit "Hel"; lit "lo" ++ [TAB]; lit "World"] in
  let reader := {| read := fun _ => chunk_source chunks |} in
  let partials :=
    [calculate_statistics_chunk Fragment.ucd (lit "world");
     calculate_statistics_chunk Fragment.ucd (lit "hel");
     calculate_statistics_chunk Fragment.ucd (lit "lo____")] in
  read reader 0 = chunk_source chunks
  /\ read reader 1 = chunk_source chunks
  /\ Permutation partials
       (imap (calculate_statistics_chunk Fragment.ucd)
          (imap (sanitize_chunk (ProcessTextSanitizer Fragment.ucd)) chunks))
  /\ dict_eq (fold_left Counter_update partials Counter_new)
       (AlphabetStatisticsCalculator_calculate Fragment.ucd
          (map (ProcessTextSanitizer_sanitize Fragment.ucd) chunks)).
Proof.
  intros chunks reader partials.
  split; [reflexivity |]. split; [reflexivity |].
  assert (Hperm :
            Permutation partials
              (imap (calculate_statistics_chunk Fragment.ucd)
                 (imap (sanitize_chunk (ProcessTextSanitizer Fragment.ucd))
                    chunks))).
  { change (Permutation
              [calculate_statistics_chunk Fragment.ucd (lit "world");
               calculate_statistics_chunk Fragment.ucd (lit "hel");
               calculate_statistics_chunk Fragment.ucd (lit "lo____")]
              [calculate_statistics_chunk Fragment.ucd (lit "hel");
               calculate_statistics_chunk Fragment.ucd (lit "lo____");
               calculate_statistics_chunk Fragment.ucd (lit "world")]).
    exact (Permutation_cons_append [_; _] _). }
  split; [exact Hperm |].
  apply (output_is_sequential_whatever_the_schedule Fragment.ucd reader
           chunks partials eq_refl eq_refl Hperm).
Defined.


Lemma FileOutputWriter_at_opening (target : option string) :
  FileOutputWriter_at target
  = FileOutputWriter_opening (target_opening target).
Proof. destruct target; reflexivity. Qed.

Lemma run_processor_first_read_raises (U : Unicode.Database)
  (reader : InputReader) (opening : option exn) (e : exn) :
  raised (read reader 0) = Some e ->
  process U (run_processor U reader opening) initial_world
  = Aborted e {| target_file := None;
                 stdout := printed (read reader 0) |}.
Proof.
  intros H. unfold process. cbn [input_reader run_processor].
  now rewrite H.
Qed.

Lemma run_processor_first_read_returns (U : Unicode.Database)
  (reader : InputReader) (opening : option exn) :
  raised (read reader 0) = None ->
  process U (run_processor U reader opening) initial_world
  = match opening with
    | Some e => Aborted e initial_world
    | None => process U (text_processor U reader) initial_world
    end.
Proof.
  intros H. unfold process.
  cbn [input_reader output_writer sanitizer run_processor text_processor
         write FileOutputWriter_opening FileOutputWriter].
  rewrite H. now destruct opening.
Qed.

Lemma main_args_run (U : Unicode.Database) (TypeError_connect : exn)
  (args : arguments) (config_read : exn + ConfigParser)
  (fs : string -> nat -> file_response)
  (db : connection_parameters -> option string -> nat -> db_response)
  (s : settings) :
  resolve_settings args config_read = inr s ->
  main_args U TypeError_connect args config_read fs db
  = match main_reader TypeError_connect s fs db with
    | Some reader =>
        process U (run_processor U reader (target_opening (setting_target s)))
          initial_world
    | None => Aborted ValueError_source initial_world
    end.
Proof.
  intros Hs. unfold main_args, main_reader, run_processor. rewrite Hs.
  rewrite FileOutputWriter_at_opening.
  destruct (source_is (setting_source s) "file"); [reflexivity |].
  destruct (source_is (setting_source s) "db"); reflexivity.
Qed.



(** * Further properties *)

(** ** The windows of the file reader *)

Lemma firstn_plus {A : Type} (n m : nat) (l : list A) :
  firstn (n + m) l = firstn n l ++ firstn m (skipn n l).
Proof.
  revert l. induction n as [| n IH]; intros l; [reflexivity |].
  destruct l as [| x l]; cbn [Nat.add firstn skipn app].
  - now rewrite firstn_nil.
  - now rewrite IH.
Qed.

Lemma bytes_slice_window (b : bytes) (i size : nat) :
  bytes_slice b i (i + size) = firstn size (skipn i b).
Proof. unfold bytes_slice. f_equal. lia. Qed.

Lemma windows_prefix (b : bytes) (size k : nat) :
  concat (map (fun i => bytes_slice b i (i + size))
              (map (fun j => (j * size)%nat) (seq 0 k)))
  = firstn (k * size) b.
Proof.
  induction k as [| k IH]; [reflexivity |].
  rewrite seq_S, !map_app, concat_app, IH. cbn [map concat Nat.add].
  rewrite app_nil_r, bytes_slice_window.
  replace (S k * size)%nat with (k * size + size)%nat by lia.
  now rewrite firstn_plus.
Qed.

Lemma window_count (len size : nat) :
  (0 < size)%nat ->
  (len <= (len + size - 1) / size * size)%nat
  /\ (forall j, j < (len + size - 1) / size -> j * size < len)%nat.
Proof.
  intros Hsize.
  pose proof (Nat.div_mod_eq (len + size - 1) size) as Hdiv.
  pose proof (Nat.mod_upper_bound (len + size - 1) size) as Hmod.
  split; [nia |]. intros j Hj. nia.
Qed.

Lemma read_file_windows (mmap_obj : bytes) (chunk_size : Z) :
  mmap_obj <> [] -> (0 < chunk_size)%Z ->
  MemoryMappedFileInputReader_read chunk_size (FileContent mmap_obj)
  = decode_windows (file_windows mmap_obj (Z.to_nat chunk_size)).
Proof.
  intros Hne Hsize. destruct mmap_obj as [| b0 rest]; [now elim Hne |].
  unfold MemoryMappedFileInputReader_read.
  destruct (Z.eqb_spec chunk_size 0) as [-> | _]; [lia |].
  destruct (Z.ltb_spec chunk_size 0) as [Hneg | _]; [lia |].
  reflexivity.
Qed.

Lemma file_windows_concat (b : bytes) (size : nat) :
  (0 < size)%nat -> concat (file_windows b size) = b.
Proof.
  intros Hsize. unfold file_windows, range_step. rewrite windows_prefix.
  apply firstn_all2. apply (window_count (List.length b) size Hsize).
Qed.

Lemma file_windows_sizes (b : bytes) (size : nat) :
  (0 < size)%nat ->
  Forall (fun w => (0 < List.length w <= size)%nat) (file_windows b size).
Proof.
  intros Hsize. apply Forall_forall. intros w Hw.
  unfold file_windows, range_step in Hw. rewrite map_map in Hw.
  apply in_map_iff in Hw. destruct Hw as [j [<- Hj]].
  apply in_seq in Hj.
  pose proof (proj2 (window_count (List.length b) size Hsize) j) as Hlt.
  rewrite bytes_slice_window, length_firstn, length_skipn. lia.
Qed.

(** X1: for a non-empty file and a positive chunk size, the reader
    decodes the windows of the file one after the other, and the windows
    cut the file into consecutive pieces: put together they are the file,
    none is empty and none is longer than the chunk size. *)
Theorem file_reader_windows_partition_the_file (mmap_obj : bytes)
  (chunk_size : Z) :
  mmap_obj <> [] -> (0 < chunk_size)%Z ->
  MemoryMappedFileInputReader_read chunk_size (FileContent mmap_obj)
  = decode_windows (file_windows mmap_obj (Z.to_nat chunk_size))
  /\ concat (file_windows mmap_obj (Z.to_nat chunk_size)) = mmap_obj
  /\ Forall (fun w => (0 < List.length w <= Z.to_nat chunk_size)%nat)
       (file_windows mmap_obj (Z.to_nat chunk_size)).
Proof.
  intros Hne Hsize. split; [now apply read_file_windows |].
  split; [apply file_windows_concat | apply file_windows_sizes]; lia.
Qed.

Lemma file_reader_windows_partition_the_file_witness :
  lit "abcdefgh" <> [] /\ (0 < 3)%Z /\
  concat (file_windows (lit "abcdefgh") (Z.to_nat 3)) = lit "abcdefgh".
Proof.
  assert (Hne : lit "abcdefgh" <> []) by discriminate.
  assert (Hsize : (0 < 3)%Z) by reflexivity.
  split; [exact Hne |]. split; [exact Hsize |].
  apply (file_reader_windows_partition_the_file (lit "abcdefgh") 3 Hne Hsize).
Defined.

(** ** Decoding *)

Ltac decoder_cases :=
  repeat (cbn [bytes_decode_utf8 app] in *;
          match goal with
          | H : None = Some _ |- _ => discriminate H
          | H : context [if ?c then _ else _] |- _ => destruct c eqn:?
          | H : context [match ?l with [] => _ | _ :: _ => _ end] |- _ =>
              is_var l; destruct l
          end).

Lemma option_map_some {A B : Type} (f : A -> B) (o : option A) (y : B) :
  option_map f o = Some y -> exists x, o = Some x /\ y = f x.
Proof. destruct o; [intros [= <-]; eauto | discriminate]. Qed.

Lemma bytes_decode_utf8_app_bounded (n : nat) :
  forall a, (List.length a <= n)%nat ->
  forall s b, bytes_decode_utf8 a = Some s ->
  bytes_decode_utf8 (a ++ b) = option_map (app s) (bytes_decode_utf8 b).
Proof.
  induction n as [| n IH]; intros a Hlen s b H.
  - destruct a; [| cbn in Hlen; lia].
    cbn in H. injection H as <-. cbn. now destruct (bytes_decode_utf8 b).
  - destruct a as [| b0 r0].
    + cbn in H. injection H as <-. cbn. now destruct (bytes_decode_utf8 b).
    + decoder_cases;
        apply option_map_some in H; destruct H as [x [Hx ->]];
        match type of Hx with
        | bytes_decode_utf8 ?r = Some _ =>
            assert (Hr : (List.length r <= n)%nat)
              by (cbn [List.length] in Hlen; lia);
            rewrite (IH r Hr x b Hx)
        end;
        now destruct (bytes_decode_utf8 b).
Qed.

(** A decodable prefix can be decoded on its own. *)
Lemma bytes_decode_utf8_app (a b : bytes) (s : str) :
  bytes_decode_utf8 a = Some s ->
  bytes_decode_utf8 (a ++ b) = option_map (app s) (bytes_decode_utf8 b).
Proof. apply (bytes_decode_utf8_app_bounded (List.length a)), le_n. Qed.

Lemma decode_windows_returns (windows : list bytes) :
  raised (decode_windows windows) = None ->
  bytes_decode_utf8 (concat windows)
  = Some (concat (yields (decode_windows windows))).
Proof.
  induction windows as [| w rest IH]; intros H; [reflexivity |].
  cbn [decode_windows concat] in *.
  destruct (bytes_decode_utf8 w) as [chunk |] eqn:Hw; [| discriminate H].
  cbn [raised yields concat] in *.
  now rewrite (bytes_decode_utf8_app w _ chunk Hw), (IH H).
Qed.

(** X2: when the chunked read of a non-empty file returns without an
    exception, the chunks put together are the decoded file: reading in
    windows loses and changes nothing. *)
Theorem file_reader_chunks_are_the_decoded_file (mmap_obj : bytes)
  (chunk_size : Z) :
  mmap_obj <> [] -> (0 < chunk_size)%Z ->
  raised (MemoryMappedFileInputReader_read chunk_size (FileContent mmap_obj))
  = None ->
  bytes_decode_utf8 mmap_obj
  = Some (concat (yields (MemoryMappedFileInputReader_read chunk_size
                            (FileContent mmap_obj)))).
Proof.
  intros Hne Hsize. rewrite (read_file_windows mmap_obj chunk_size Hne Hsize).
  intros H. rewrite <- (decode_windows_returns _ H).
  now rewrite file_windows_concat by lia.
Qed.

Lemma file_reader_chunks_are_the_decoded_file_witness :
  let content := [0x61; 0xCE; 0x91; 0xCE; 0xA3; 0x62] in
  content <> [] /\ (0 < 3)%Z /\
  raised (MemoryMappedFileInputReader_read 3 (FileContent content)) = None /\
  bytes_decode_utf8 content
  = Some (concat (yields (MemoryMappedFileInputReader_read 3
                            (FileContent content)))).
Proof.
  intros content.
  assert (Hne : content <> []) by discriminate.
  assert (Hsize : (0 < 3)%Z) by reflexivity.
  assert (Hok : raised (MemoryMappedFileInputReader_read 3
                          (FileContent content)) = None) by reflexivity.
  split; [exact Hne |]. split; [exact Hsize |]. split; [exact Hok |].
  exact (file_reader_chunks_are_the_decoded_file content 3 Hne Hsize Hok).
Defined.

Lemma bytes_decode_utf8_ascii (b : bytes) :
  ascii_text b = true -> bytes_decode_utf8 b = Some b.
Proof.
  unfold ascii_text. induction b as [| b0 r IH]; [reflexivity |].
  cbn [forallb bytes_decode_utf8]. intros H.
  apply andb_true_iff in H. destruct H as [H0 Hr].
  change (b0 <? 0x80) with (b0 <? 128). now rewrite H0, (IH Hr).
Qed.

Lemma decode_windows_ascii (windows : list bytes) :
  Forall (fun w => ascii_text w = true) windows ->
  decode_windows windows
  = {| yields := windows; printed := []; raised := None |}.
Proof.
  induction 1 as [| w rest Hw _ IH]; [reflexivity |].
  cbn [decode_windows]. now rewrite (bytes_decode_utf8_ascii w Hw), IH.
Qed.

Lemma file_windows_ascii (b : bytes) (size : nat) :
  (0 < size)%nat -> ascii_text b = true ->
  Forall (fun w => ascii_text w = true) (file_windows b size).
Proof.
  intros Hsize Hb. apply Forall_forall. intros w Hw.
  unfold ascii_text in *. rewrite forallb_forall in *.
  intros x Hx. apply Hb.
  rewrite <- (file_windows_concat b size Hsize).
  apply in_concat. now exists w.
Qed.

(** X3: an ASCII file that is not empty is read without an exception
    whatever the positive chunk size, and the chunks put together are the
    bytes of the file taken as code points. *)
Theorem file_reader_reads_ascii_files (mmap_obj : bytes) (chunk_size : Z) :
  mmap_obj <> [] -> (0 < chunk_size)%Z -> ascii_text mmap_obj = true ->
  let g := MemoryMappedFileInputReader_read chunk_size
             (FileContent mmap_obj) in
  raised g = None /\ printed g = [] /\ concat (yields g) = mmap_obj
  /\ yields g = file_windows mmap_obj (Z.to_nat chunk_size).
Proof.
  intros Hne Hsize Hascii g. unfold g.
  rewrite (read_file_windows mmap_obj chunk_size Hne Hsize).
  rewrite decode_windows_ascii by (apply file_windows_ascii; [lia | exact Hascii]).
  cbn [raised printed yields]. repeat split.
  apply file_windows_concat. lia.
Qed.

Lemma file_reader_reads_ascii_files_witness :
  lit "Hello World" <> [] /\ (0 < 4)%Z /\
  ascii_text (lit "Hello World") = true /\
  yields (MemoryMappedFileInputReader_read 4 (FileContent (lit "Hello World")))
  = [lit "Hell"; lit "o Wo"; lit "rld"].
Proof.
  assert (Hne : lit "Hello World" <> []) by discriminate.
  assert (Hsize : (0 < 4)%Z) by reflexivity.
  assert (Hascii : ascii_text (lit "Hello World") = true) by reflexivity.
  split; [exact Hne |]. split; [exact Hsize |]. split; [exact Hascii |].
  pose proof (file_reader_reads_ascii_files (lit "Hello World") 4
                Hne Hsize Hascii) as H.
  cbv zeta in H. destruct H as [_ [_ [_ H]]]. rewrite H. reflexivity.
Defined.

Lemma bytes_decode_utf8_single (x : byte) :
  bytes_decode_utf8 [x] = if x <? 128 then Some [x] else None.
Proof.
  cbn [bytes_decode_utf8 option_map]. change (x <? 0x80) with (x <? 128).
  destruct (x <? 128); [reflexivity |].
  repeat match goal with
         | |- context [if ?c then _ else _] => destruct c
         end; reflexivity.
Qed.

Lemma singleton_windows (windows : list bytes) :
  Forall (fun w => (0 < List.length w <= 1)%nat) windows ->
  windows = map (fun x => [x]) (concat windows).
Proof.
  induction 1 as [| w rest Hw _ IH]; [reflexivity |].
  destruct w as [| x [| y w]]; cbn [List.length] in Hw; try lia.
  cbn [concat app map]. now f_equal.
Qed.

Lemma decode_windows_bytes (b : bytes) :
  raised (decode_windows (map (fun x => [x]) b)) = None
  <-> ascii_text b = true.
Proof.
  unfold ascii_text. induction b as [| x b IH]; [now split |].
  cbn [map decode_windows forallb]. rewrite bytes_decode_utf8_single.
  destruct (x <? 128); cbn [raised andb]; [exact IH |].
  split; discriminate.
Qed.

(** X4: with a chunk size of one byte every window is a single byte, so
    the read of a non-empty file returns without an exception exactly
    when the file is ASCII: any multi-byte character is cut and raises
    [UnicodeDecodeError]. *)
Theorem file_reader_byte_windows_need_ascii (mmap_obj : bytes) :
  mmap_obj <> [] ->
  (raised (MemoryMappedFileInputReader_read 1 (FileContent mmap_obj)) = None
   <-> ascii_text mmap_obj = true)
  /\ (raised (MemoryMappedFileInputReader_read 1 (FileContent mmap_obj))
      <> None ->
      raised (MemoryMappedFileInputReader_read 1 (FileContent mmap_obj))
      = Some UnicodeDecodeError).
Proof.
  intros Hne.
  rewrite (read_file_windows mmap_obj 1 Hne eq_refl).
  pose proof (file_windows_sizes mmap_obj (Z.to_nat 1) ltac:(cbn; lia)) as Hs.
  apply singleton_windows in Hs.
  rewrite (file_windows_concat mmap_obj (Z.to_nat 1)) in Hs by (cbn; lia).
  rewrite Hs. split; [apply decode_windows_bytes |].
  clear Hs Hne. induction mmap_obj as [| x b IH]; [intros H; now elim H |].
  cbn [map decode_windows]. rewrite bytes_decode_utf8_single.
  destruct (x <? 128); cbn [raised]; [exact IH | reflexivity].
Qed.

Lemma file_reader_byte_windows_need_ascii_witness :
  [0xCE; 0x91] <> [] /\
  raised (MemoryMappedFileInputReader_read 1 (FileContent [0xCE; 0x91]))
  = Some UnicodeDecodeError.
Proof.
  assert (Hne : [0xCE; 0x91] <> @nil byte) by discriminate.
  split; [exact Hne |].
  apply (proj2 (file_reader_byte_windows_need_ascii [0xCE; 0x91] Hne)).
  discriminate.
Defined.

(** ** Decoded code points *)

Ltac comparisons_to_prop :=
  repeat match goal with
         | H : andb _ _ = true |- _ =>
             apply andb_true_iff in H; destruct H
         | H : andb _ _ = false |- _ =>
             apply andb_false_iff in H; destruct H
         | H : N.leb _ _ = true |- _ => apply N.leb_le in H
         | H : N.leb _ _ = false |- _ => apply N.leb_gt in H
         | H : N.ltb _ _ = true |- _ => apply N.ltb_lt in H
         | H : N.ltb _ _ = false |- _ => apply N.ltb_ge in H
         | H : N.eqb _ _ = true |- _ => apply N.eqb_eq in H
         | H : N.eqb _ _ = false |- _ => apply N.eqb_neq in H
         | H : context [if ?c then _ else _] |- _ => destruct c eqn:?
         end.

Lemma scalar_value_iff (c : char) :
  scalar_value c = true <-> c < 0x110000 /\ (c < 0xD800 \/ 0xDFFF < c).
Proof.
  unfold scalar_value.
  rewrite andb_true_iff, negb_true_iff, andb_false_iff, N.ltb_lt,
    !N.leb_gt.
  reflexivity.
Qed.

Lemma scalar_values_bounded (n : nat) :
  forall b, (List.length b <= n)%nat ->
  forall s, bytes_decode_utf8 b = Some s ->
  forallb scalar_value s = true /\ (List.length s <= List.length b)%nat.
Proof.
  induction n as [| n IH]; intros b Hlen s H.
  - destruct b; [| cbn in Hlen; lia].
    cbn in H. injection H as <-. now split.
  - destruct b as [| b0 r0].
    + cbn in H. injection H as <-. now split.
    + decoder_cases;
        apply option_map_some in H; destruct H as [x [Hx ->]];
        match type of Hx with
        | bytes_decode_utf8 ?r = Some _ =>
            assert (Hr : (List.length r <= n)%nat)
              by (cbn [List.length] in Hlen; lia);
            destruct (IH r Hr x Hx) as [Hscalar Hshort]
        end;
        (split; [| cbn [List.length] in *; lia]);
        cbn [forallb]; rewrite Hscalar, andb_true_r;
        apply scalar_value_iff;
        unfold second_of_three, second_of_four, continuation in *;
        clear Hx Hscalar Hshort Hr Hlen IH;
        comparisons_to_prop; lia.
Qed.

(** X5: whatever the decoder returns consists of Unicode scalar values
    (at most U+10FFFF, no surrogate) and has at most as many characters
    as the input has bytes. *)
Theorem decoded_text_is_scalar_values (b : bytes) (s : str) :
  bytes_decode_utf8 b = Some s ->
  forallb scalar_value s = true /\ (List.length s <= List.length b)%nat.
Proof. apply (scalar_values_bounded (List.length b)), le_n. Qed.

Lemma decoded_text_is_scalar_values_witness :
  bytes_decode_utf8 [0xF0; 0x9F; 0x98; 0x80; 0x41] = Some [0x1F600; 0x41] /\
  forallb scalar_value [0x1F600; 0x41] = true.
Proof.
  assert (H : bytes_decode_utf8 [0xF0; 0x9F; 0x98; 0x80; 0x41]
              = Some [0x1F600; 0x41]) by reflexivity.
  split; [exact H |].
  exact (proj1 (decoded_text_is_scalar_values _ _ H)).
Defined.

(** ** Sanitizing and counting *)

Section CountingFacts.

Variable U : Unicode.Database.
Hypothesis laws : Unicode.Laws U.

Lemma tab_not_alphabetic : str_isalpha U TAB = false.
Proof.
  unfold str_isalpha. now rewrite (Unicode.ascii_alpha_law U laws TAB).
Qed.

Lemma underscore_not_alphabetic : str_isalpha U UNDERSCORE = false.
Proof.
  unfold str_isalpha.
  now rewrite (Unicode.ascii_alpha_law U laws UNDERSCORE).
Qed.

(** The substitution neither adds nor removes a letter. *)
Lemma filter_isalpha_replace_tab (s : str) :
  filter (str_isalpha U) (flat_map replace_tab s)
  = filter (str_isalpha U) s.
Proof.
  induction s as [| c s IH]; [reflexivity |].
  cbn [flat_map]. rewrite filter_app, IH. unfold replace_tab.
  destruct (N.eqb_spec c TAB) as [-> | _].
  - cbn [filter underscores]. now rewrite underscore_not_alphabetic,
      tab_not_alphabetic.
  - cbn [filter]. now destruct (str_isalpha U c).
Qed.

Lemma letters_raw (chunk : str) :
  letters U (ProcessTextSanitizer U) chunk
  = filter (str_isalpha U) (str_lower U chunk).
Proof.
  rewrite (letters_sanitized U laws), sanitize_unfold.
  apply filter_isalpha_replace_tab.
Qed.

End CountingFacts.

(** X6: sanitizing a chunk does not change its statistics: the counter of
    the sanitized chunk is the counter of the chunk as read (Unicode tables
    with the properties [Unicode.Laws]). *)
Theorem statistics_ignore_sanitizing (U : Unicode.Database)
  (laws : Unicode.Laws U) (chunk : str) :
  calculate_statistics_chunk U (ProcessTextSanitizer_sanitize U chunk)
  = calculate_statistics_chunk U chunk.
Proof.
  unfold calculate_statistics_chunk.
  now rewrite <- (letters_raw U laws chunk).
Qed.

Lemma statistics_ignore_sanitizing_witness :
  Unicode.Laws Fragment.ucd /\
  calculate_statistics_chunk Fragment.ucd
    (ProcessTextSanitizer_sanitize Fragment.ucd hello_world)
  = calculate_statistics_chunk Fragment.ucd hello_world.
Proof.
  split; [exact fragment_laws |].
  exact (statistics_ignore_sanitizing Fragment.ucd fragment_laws hello_world).
Defined.

(** X7: the statistics that [process] computes in the pool are the ones
    the sequential [AlphabetStatisticsCalculator.calculate] returns on the
    chunks as read, key order included (Unicode tables with the properties
    [Unicode.Laws]). *)
Theorem pool_statistics_are_calculator_statistics (U : Unicode.Database)
  (laws : Unicode.Laws U) (chunks : list str) :
  combined_statistics U (ProcessTextSanitizer U) chunks
  = calculate (AlphabetStatisticsCalculator U) chunks.
Proof.
  cbn [calculate AlphabetStatisticsCalculator].
  rewrite combined_statistics_count, calculate_count. do 2 f_equal.
  apply map_ext. apply (letters_raw U laws).
Qed.

Lemma pool_statistics_are_calculator_statistics_witness :
  Unicode.Laws Fragment.ucd /\
  combined_statistics Fragment.ucd (ProcessTextSanitizer Fragment.ucd)
    [lit "Hel"; lit "lo" ++ [TAB]; lit "World"]
  = calculate (AlphabetStatisticsCalculator Fragment.ucd)
      [lit "Hel"; lit "lo" ++ [TAB]; lit "World"].
Proof.
  split; [exact fragment_laws |].
  exact (pool_statistics_are_calculator_statistics Fragment.ucd
           fragment_laws [lit "Hel"; lit "lo" ++ [TAB]; lit "World"]).
Defined.

Lemma mem_occurrences (k : char) (l : str) :
  mem k l = negb (Nat.eqb (occurrences k l) 0).
Proof.
  induction l as [| x l IH]; [reflexivity |].
  rewrite mem_cons, occurrences_cons, IH.
  destruct (k =? x); [reflexivity |].
  reflexivity.
Qed.

Lemma dict_get_Counter_of (l : str) (k : char) :
  dict_get (Counter_of l) k
  = if Nat.eqb (occurrences k l) 0 then None
    else Some (Z.of_nat (occurrences k l)).
Proof.
  unfold Counter_of, Counter_update_iterable, Counter_new.
  rewrite dict_get_mem, dict_keys_count_elements, mem_extend,
    dict_get_default_count_elements.
  change (mem k (dict_keys [])) with false.
  change (dict_get_default [] k 0) with 0%Z.
  rewrite mem_occurrences. cbn [orb Z.add].
  now destruct (Nat.eqb (occurrences k l) 0).
Qed.

(** X8: the counter of a chunk gives every character the number of its
    occurrences among the alphabetic characters of the lowercased chunk,
    and has no entry for a character that does not occur there; in
    particular a character that is not alphabetic is never a key. *)
Theorem chunk_counter_counts_occurrences (U : Unicode.Database)
  (chunk : str) (k : char) :
  let n := occurrences k (filter (str_isalpha U) (str_lower U chunk)) in
  dict_get (calculate_statistics_chunk U chunk) k
  = (if Nat.eqb n 0 then None else Some (Z.of_nat n))
  /\ (str_isalpha U k = false ->
      dict_get (calculate_statistics_chunk U chunk) k = None).
Proof.
  intros n. unfold calculate_statistics_chunk.
  rewrite dict_get_Counter_of. fold n. split; [reflexivity |].
  intros Hk. replace n with 0%nat; [reflexivity |].
  symmetry. apply occurrences_absent. intros Hin.
  apply filter_In in Hin. destruct Hin as [_ Hin]. congruence.
Qed.

(** X9: in the statistics of a run every letter has the number of its
    occurrences in the emitted text, the sanitized chunks put together
    (Unicode tables with the properties [Unicode.Laws]). *)
Theorem statistics_count_letters_of_emitted_text (U : Unicode.Database)
  (laws : Unicode.Laws U) (chunks : list str) (k : char) :
  let emitted := concat (map (ProcessTextSanitizer_sanitize U) chunks) in
  let n := occurrences k (filter (str_isalpha U) emitted) in
  dict_get (combined_statistics U (ProcessTextSanitizer U) chunks) k
  = if Nat.eqb n 0 then None else Some (Z.of_nat n).
Proof.
  intros emitted n. rewrite combined_statistics_count.
  rewrite (letters_concat U laws). fold emitted.
  exact (dict_get_Counter_of (filter (str_isalpha U) emitted) k).
Qed.

Lemma statistics_count_letters_of_emitted_text_witness :
  Unicode.Laws Fragment.ucd /\
  dict_get
    (combined_statistics Fragment.ucd (ProcessTextSanitizer Fragment.ucd)
       [lit "HeL"; lit "lo" ++ [TAB] ++ lit "WorLd"])
    (ch "l")
  = Some 3%Z.
Proof.
  split; [exact fragment_laws |].
  exact (statistics_count_letters_of_emitted_text Fragment.ucd fragment_laws
           [lit "HeL"; lit "lo" ++ [TAB] ++ lit "WorLd"] (ch "l")).
Defined.

(** X10: for chunks without the capital sigma U+03A3, the emitted text
    does not depend on where the input was cut: the sanitized chunks put
    together are the sanitized whole. *)
Theorem emitted_text_ignores_chunk_boundaries (U : Unicode.Database)
  (chunks : list str) :
  ~ In CAPITAL_SIGMA (concat chunks) ->
  concat (map (ProcessTextSanitizer_sanitize U) chunks)
  = ProcessTextSanitizer_sanitize U (concat chunks).
Proof. intros H. symmetry. now apply sanitize_concat. Qed.

Lemma emitted_text_ignores_chunk_boundaries_witness :
  let chunks := [lit "Hel"; lit "lo" ++ [TAB]; lit "World"] in
  ~ In CAPITAL_SIGMA (concat chunks) /\
  concat (map (ProcessTextSanitizer_sanitize Fragment.ucd) chunks)
  = ProcessTextSanitizer_sanitize Fragment.ucd (concat chunks).
Proof.
  intros chunks.
  assert (H : ~ In CAPITAL_SIGMA (concat chunks))
    by (apply mem_false; reflexivity).
  split; [exact H |].
  exact (emitted_text_ignores_chunk_boundaries Fragment.ucd chunks H).
Defined.

Lemma occurrences_zero (c : char) (s : str) :
  occurrences c s = 0%nat -> ~ In c s.
Proof.
  intros H Hin. pose proof (occurrences_present c s Hin). lia.
Qed.

(** X11: the texts that [sanitize] leaves unchanged are exactly the texts
    without a tab that lowercasing leaves unchanged (Unicode tables with
    the properties [Unicode.Laws]). *)
Theorem sanitize_fixed_points (U : Unicode.Database) (laws : Unicode.Laws U)
  (text : str) :
  ProcessTextSanitizer_sanitize U text = text
  <-> ~ In TAB text /\ str_lower U text = text.
Proof.
  split.
  - intros H.
    assert (Htab : ~ In TAB text)
      by (rewrite <- H; apply sanitize_no_tab).
    split; [exact Htab |].
    rewrite sanitize_unfold in H.
    rewrite replace_tab_free in H; [exact H |].
    apply occurrences_zero. rewrite (str_lower_tabs U laws).
    now apply occurrences_absent.
  - intros [Htab Hlower].
    rewrite sanitize_unfold, Hlower. now apply replace_tab_free.
Qed.

Lemma sanitize_fixed_points_witness :
  Unicode.Laws Fragment.ucd /\
  (ProcessTextSanitizer_sanitize Fragment.ucd (lit "hello____world")
   = lit "hello____world"
   <-> ~ In TAB (lit "hello____world")
       /\ str_lower Fragment.ucd (lit "hello____world")
          = lit "hello____world").
Proof.
  split; [exact fragment_laws |].
  exact (sanitize_fixed_points Fragment.ucd fragment_laws
           (lit "hello____world")).
Defined.

Lemma replace_tab_ascii (s : str) :
  ascii_text s = true -> ascii_text (flat_map replace_tab s) = true.
Proof.
  unfold ascii_text. rewrite !forallb_forall. intros Hs c Hc.
  apply in_flat_map in Hc. destruct Hc as [x [Hx Hc]].
  unfold replace_tab in Hc. destruct (x =? TAB).
  - cbn [underscores In] in Hc.
    repeat destruct Hc as [<- | Hc]; try reflexivity. destruct Hc.
  - destruct Hc as [<- | []]. now apply Hs.
Qed.

(** X12: on ASCII text [sanitize] does not depend on the Unicode tables:
    it lowercases A to Z, replaces the tabs, and returns ASCII text
    (any two tables with the properties [Unicode.Laws]). *)
Theorem sanitize_ascii_text (U U' : Unicode.Database)
  (laws : Unicode.Laws U) (laws' : Unicode.Laws U') (text : str) :
  ascii_text text = true ->
  ProcessTextSanitizer_sanitize U text
  = flat_map replace_tab (map Unicode.ascii_tolower text)
  /\ ProcessTextSanitizer_sanitize U text
     = ProcessTextSanitizer_sanitize U' text
  /\ ascii_text (ProcessTextSanitizer_sanitize U text) = true.
Proof.
  intros Hascii.
  assert (H : forall V, Unicode.Laws V ->
                ProcessTextSanitizer_sanitize V text
                = flat_map replace_tab (map Unicode.ascii_tolower text)).
  { intros V HV. rewrite sanitize_unfold.
    now rewrite (str_lower_ascii V HV text Hascii). }
  split; [now apply H |]. split; [now rewrite !H |].
  rewrite (H U laws). apply replace_tab_ascii.
  now apply ascii_tolower_ascii.
Qed.

Lemma sanitize_ascii_text_witness :
  Unicode.Laws Fragment.ucd /\ ascii_text hello_world = true /\
  ascii_text (ProcessTextSanitizer_sanitize Fragment.ucd hello_world) = true.
Proof.
  assert (Hascii : ascii_text hello_world = true) by reflexivity.
  split; [exact fragment_laws |]. split; [exact Hascii |].
  apply (sanitize_ascii_text Fragment.ucd Fragment.ucd fragment_laws
           fragment_laws hello_world Hascii).
Defined.

(** ** Merging counters *)

Lemma total_accumulate (s : dict) (items : list (char * Z)) :
  total (accumulate s items) = (total s + total items)%Z.
Proof.
  revert s. induction items as [| [k n] items IH]; intros s.
  - cbn [accumulate fold_left]. change (total []) with 0%Z. lia.
  - cbn [accumulate fold_left].
    fold (accumulate (add_count s (k, n)) items). rewrite IH.
    unfold add_count. cbn [fst snd]. rewrite total_setitem.
    change (total ((k, n) :: items)) with (n + total items)%Z. lia.
Qed.

(** X13: adding a counter to another adds the counts key by key, and the
    total of the result is the sum of the two totals. *)
Theorem Counter_update_adds_counts (self other : Counter) (k : char) :
  dict_wf other ->
  dict_get_default (Counter_update self other) k 0
  = (dict_get_default self k 0 + dict_get_default other k 0)%Z
  /\ total (Counter_update self other) = (total self + total other)%Z.
Proof.
  intros Hwf. rewrite (Counter_update_accumulate self other Hwf).
  rewrite dict_get_default_accumulate, (weight_wf k other Hwf).
  split; [reflexivity | apply total_accumulate].
Qed.

Lemma Counter_update_adds_counts_witness :
  let self := [(ch "h", 1); (ch "e", 2)]%Z in
  let other := [(ch "e", 1); (ch "l", 3)]%Z in
  dict_wf other /\
  dict_get_default (Counter_update self other) (ch "e") 0 = 3%Z /\
  total (Counter_update self other) = 7%Z.
Proof.
  intros self other.
  assert (Hwf : dict_wf other) by reflexivity.
  split; [exact Hwf |].
  exact (Counter_update_adds_counts self other (ch "e") Hwf).
Defined.

Lemma extend_appends (l ks : list char) :
  exists rest,
    extend ks l = ks ++ rest
    /\ forall k, In k rest <-> In k l /\ ~ In k ks.
Proof.
  revert ks. induction l as [| x l IH]; intros ks.
  - exists []. split; [now rewrite app_nil_r |].
    intros k. split; [intros [] | intros [[] _]].
  - cbn [extend fold_left]. fold (extend (add_key ks x) l).
    destruct (IH (add_key ks x)) as [rest [Heq Hrest]].
    unfold add_key in *. destruct (mem x ks) eqn:Hx.
    + exists rest. split; [exact Heq |].
      intros k. rewrite Hrest. apply mem_In in Hx.
      split; [intros [H1 H2]; split; [now right | exact H2] |].
      intros [[<- | H1] H2]; [contradiction | now split].
    + exists (x :: rest). split; [now rewrite Heq, <- app_assoc |].
      apply mem_false in Hx. intros k. cbn [In]. rewrite Hrest, in_app_iff.
      cbn [In]. destruct (N.eqb_spec x k) as [<- | Hne].
      * split; [intros _; split; [now left | exact Hx] | intros _; now left].
      * split.
        -- intros [H | [H1 H2]]; [contradiction |].
           split; [now right | intros H; apply H2; now left].
        -- intros [[H | H1] H2]; [contradiction |].
           right. split; [exact H1 |]. intros [H | [H | []]]; contradiction.
Qed.

(** X14: adding a counter keeps the keys of the accumulator where they
    are and appends the keys it did not have, and the keys stay
    distinct: the file lists the letters in the order of their first
    occurrence over all chunks. *)
Theorem Counter_update_keeps_key_order (self other : Counter) :
  dict_wf self -> dict_wf other ->
  dict_wf (Counter_update self other)
  /\ exists rest,
       dict_keys (Counter_update self other) = dict_keys self ++ rest
       /\ forall k, In k rest
                    <-> In k (dict_keys other) /\ ~ In k (dict_keys self).
Proof.
  intros Hs Ho. split; [now apply Counter_update_wf |].
  rewrite (Counter_update_accumulate self other Ho), dict_keys_accumulate.
  apply extend_appends.
Qed.

Lemma Counter_update_keeps_key_order_witness :
  let self := [(ch "h", 1); (ch "e", 2)]%Z in
  let other := [(ch "l", 1); (ch "e", 1); (ch "o", 3)]%Z in
  dict_wf self /\ dict_wf other /\
  dict_wf (Counter_update self other) /\
  dict_keys (Counter_update self other) = [ch "h"; ch "e"; ch "l"; ch "o"].
Proof.
  intros self other.
  assert (Hs : dict_wf self) by reflexivity.
  assert (Ho : dict_wf other) by reflexivity.
  split; [exact Hs |]. split; [exact Ho |].
  split; [| reflexivity].
  exact (proj1 (Counter_update_keeps_key_order self other Hs Ho)).
Defined.

(** ** What a run does to the target file and the standard output *)

(** X15: whatever the target file and the standard output held before,
    a run only appends to the standard output, and it either leaves the
    target file untouched (the first read failed) or replaces its content
    by what the same run writes into an empty world; after a completed
    run the standard output has received exactly the text of the file. *)
Theorem process_replaces_target_and_appends_to_stdout
  (U : Unicode.Database) (reader : InputReader) (w : world) :
  let o := process U (text_processor U reader) w in
  let o0 := process U (text_processor U reader) initial_world in
  stdout (final_world o) = stdout w ++ stdout (final_world o0)
  /\ (target_file (final_world o) = target_file (final_world o0)
      \/ (target_file (final_world o0) = None
          /\ target_file (final_world o) = target_file w))
  /\ (forall w0, o0 = Completed w0 -> target_file w0 = Some (stdout w0)).
Proof.
  intros o o0. unfold o, o0.
  destruct (raised (read reader 0)) as [e |] eqn:H0.
  - rewrite !(process_first_read_raises U reader _ e H0).
    cbn [final_world stdout target_file initial_world app].
    split; [reflexivity |]. split; [right; now split | discriminate].
  - rewrite !(process_first_read_returns U reader _ H0).
    unfold FileOutputWriter_write. cbn [raised generator_map yields printed].
    destruct (raised (read reader 1)) as [e |];
      cbn [final_world stdout target_file initial_world app].
    + split; [reflexivity |]. split; [now left | discriminate].
    + split; [reflexivity |]. split; [now left |].
      intros w0 [= <-]. reflexivity.
Qed.

(** ** The statistics lines *)

Lemma lit_cons (a : ascii) (s : string) :
  lit (String a s) = N_of_ascii a :: lit s.
Proof. reflexivity. Qed.

Lemma string_of_uint_digits (d : Decimal.uint) (c : char) :
  In c (lit (NilEmpty.string_of_uint d)) -> 48 <= c <= 57.
Proof.
  induction d; cbn [NilEmpty.string_of_uint]; rewrite ?lit_cons;
    try (intros [<- | H]; [cbn; lia | exact (IHd H)]).
  intros [].
Qed.

Lemma str_of_int_characters (n : Z) (c : char) :
  In c (str_of_int n) -> c = 45 \/ 48 <= c <= 57.
Proof.
  unfold str_of_int, NilZero.string_of_int, NilZero.string_of_uint.
  destruct (Z.to_int n) as [d | d].
  - destruct d; try (intros H; right; revert H; apply string_of_uint_digits).
    intros [<- | []]. right. cbn. lia.
  - rewrite lit_cons. intros [<- | H]; [now left |]. right. revert H.
    destruct d; try apply string_of_uint_digits.
    intros [<- | []]. cbn. lia.
Qed.

Lemma statistics_line_newlines (item : char * Z) :
  fst item <> NEWLINE -> occurrences NEWLINE (statistics_line item) = 1%nat.
Proof.
  intros Hkey. unfold statistics_line.
  rewrite !occurrences_app, (occurrences_cons NEWLINE (fst item) []).
  rewrite (occurrences_absent NEWLINE (str_of_int (snd item))).
  - destruct (N.eqb_spec NEWLINE (fst item)) as [Heq | _];
      [now elim Hkey | reflexivity].
  - intros Hin. apply str_of_int_characters in Hin.
    unfold NEWLINE in Hin. lia.
Qed.

Lemma statistics_lines_newlines (statistics : dict) :
  ~ In NEWLINE (dict_keys statistics) ->
  occurrences NEWLINE (flat_map statistics_line statistics)
  = List.length statistics.
Proof.
  induction statistics as [| item statistics IH]; intros H; [reflexivity |].
  cbn [flat_map List.length]. rewrite occurrences_app.
  rewrite statistics_line_newlines, IH; [reflexivity | |].
  - intros Hin. apply H. now right.
  - intros Heq. apply H. now left.
Qed.

(** X16: the statistics section of the file has exactly one line per key:
    the lines written for the statistics of a run contain as many
    newlines as the statistics have keys, since a key is a letter and a
    count is written with digits (Unicode tables with the properties
    [Unicode.Laws]). *)
Theorem statistics_section_has_one_line_per_key (U : Unicode.Database)
  (laws : Unicode.Laws U) (chunks : list str) :
  let statistics := combined_statistics U (ProcessTextSanitizer U) chunks in
  occurrences NEWLINE (flat_map statistics_line (dict_items statistics))
  = List.length (dict_keys statistics).
Proof.
  intros statistics. unfold dict_items, dict_keys. rewrite length_map.
  apply statistics_lines_newlines. intros Hin.
  apply in_map_iff in Hin. destruct Hin as [[k v] [Hk Hin]].
  cbn [fst] in Hk. subst k.
  assert (Halpha : str_isalpha U NEWLINE = true).
  { unfold statistics in Hin. rewrite combined_statistics_count in Hin.
    apply In_count_elements in Hin. destruct Hin as [Hin _].
    apply in_concat in Hin. destruct Hin as [l [Hl Hin]].
    apply in_map_iff in Hl. destruct Hl as [chunk [<- _]].
    unfold letters in Hin. apply filter_In in Hin. tauto. }
  unfold str_isalpha in Halpha.
  rewrite (Unicode.ascii_alpha_law U laws NEWLINE) in Halpha by reflexivity.
  discriminate Halpha.
Qed.

Lemma statistics_section_has_one_line_per_key_witness :
  Unicode.Laws Fragment.ucd /\
  occurrences NEWLINE
    (flat_map statistics_line
       (combined_statistics Fragment.ucd (ProcessTextSanitizer Fragment.ucd)
          [hello_world]))
  = 7%nat.
Proof.
  split; [exact fragment_laws |].
  exact (statistics_section_has_one_line_per_key Fragment.ucd fragment_laws
           [hello_world]).
Defined.

(** ** Rows of the database *)

Lemma In_str_join (c : char) (sep : str) (parts : list str) :
  In c (str_join sep parts) -> In c sep \/ In c (concat parts).
Proof.
  induction parts as [| p parts IH]; [intros [] |].
  destruct parts as [| q parts].
  - cbn [str_join concat]. rewrite app_nil_r. now right.
  - change (str_join sep (p :: q :: parts))
      with (p ++ sep ++ str_join sep (q :: parts)).
    change (concat (p :: q :: parts)) with (p ++ concat (q :: parts)).
    rewrite !in_app_iff. intros [H | [H | H]]; [tauto | tauto |].
    destruct (IH H); tauto.
Qed.

Section RowFacts.

Variable U : Unicode.Database.
Hypothesis laws : Unicode.Laws U.

Abbreviation lowered_letters := (lowercase_letters U).

Lemma lowered_letters_app (a b : str) :
  lowered_letters (a ++ b) = lowered_letters a ++ lowered_letters b.
Proof. unfold lowercase_letters. now rewrite flat_map_app, filter_app. Qed.

Lemma lowered_letters_space : lowered_letters [SPACE] = [].
Proof.
  unfold lowercase_letters. cbn [flat_map].
  rewrite (Unicode.ascii_lower_law U laws SPACE) by reflexivity.
  cbn [app filter Unicode.ascii_tolower]. unfold str_isalpha.
  now rewrite (Unicode.ascii_alpha_law U laws) by reflexivity.
Qed.

Lemma lowered_letters_join (parts : list str) :
  lowered_letters (str_join [SPACE] parts) = lowered_letters (concat parts).
Proof.
  induction parts as [| p parts IH]; [reflexivity |].
  destruct parts as [| q parts].
  - cbn [str_join concat]. now rewrite app_nil_r.
  - change (str_join [SPACE] (p :: q :: parts))
      with (p ++ [SPACE] ++ str_join [SPACE] (q :: parts)).
    change (concat (p :: q :: parts)) with (p ++ concat (q :: parts)).
    rewrite !lowered_letters_app, lowered_letters_space, IH. reflexivity.
Qed.

Lemma row_letters (row : list str) :
  ~ In CAPITAL_SIGMA (concat row) ->
  filter (str_isalpha U) (str_lower U (str_join [SPACE] row))
  = filter (str_isalpha U) (str_lower U (concat row)).
Proof.
  intros H. rewrite !str_lower_sigma_free.
  - apply lowered_letters_join.
  - exact H.
  - intros Hin. apply In_str_join in Hin.
    destruct Hin as [[Hin | []] | Hin]; [discriminate Hin | now apply H].
Qed.

End RowFacts.

(** X17: the single spaces that [DatabaseInputReader.read] puts between
    the columns of a row count for nothing: for rows without the capital
    sigma U+03A3, the statistics of the chunks it yields are the
    statistics of the rows with their columns put together (Unicode
    tables with the properties [Unicode.Laws]). *)
Theorem row_statistics_ignore_the_separators (U : Unicode.Database)
  (laws : Unicode.Laws U) (rows : list (list str)) :
  (forall row, In row rows -> ~ In CAPITAL_SIGMA (concat row)) ->
  combined_statistics U (ProcessTextSanitizer U)
    (yields (DatabaseInputReader_read (Rows rows)))
  = combined_statistics U (ProcessTextSanitizer U) (map (@concat char) rows).
Proof.
  intros Hrows. cbn [DatabaseInputReader_read yields].
  rewrite !combined_statistics_count, !map_map. do 2 f_equal.
  apply map_ext_in. intros row Hrow.
  rewrite !(letters_raw U laws). apply (row_letters U laws), Hrows, Hrow.
Qed.

Lemma row_statistics_ignore_the_separators_witness :
  let rows := [[lit "Ada"; lit "Lovelace"]; [lit "Alan"; lit "Turing"]] in
  Unicode.Laws Fragment.ucd /\
  (forall row, In row rows -> ~ In CAPITAL_SIGMA (concat row)) /\
  combined_statistics Fragment.ucd (ProcessTextSanitizer Fragment.ucd)
    (yields (DatabaseInputReader_read (Rows rows)))
  = combined_statistics Fragment.ucd (ProcessTextSanitizer Fragment.ucd)
      [lit "AdaLovelace"; lit "AlanTuring"].
Proof.
  intros rows.
  assert (Hrows : forall row, In row rows -> ~ In CAPITAL_SIGMA (concat row)).
  { intros row [<- | [<- | []]]; apply mem_false; reflexivity. }
  split; [exact fragment_laws |]. split; [exact Hrows |].
  exact (row_statistics_ignore_the_separators Fragment.ucd fragment_laws
           rows Hrows).
Defined.

(** X18: when the database answers the first read and fails on the
    second, the run aborts with that failure after the target file has
    been opened: the file is left empty, and the standard output holds
    only the message of the reader; nothing of the statistics computed
    from the first read is written. *)
Theorem database_failure_on_second_read_empties_target
  (U : Unicode.Database) (file : nat -> file_response)
  (db : nat -> db_response) (rows : list (list str)) (error : exn) :
  db 0%nat = Rows rows ->
  db 1%nat = DbError error ->
  main U (Some "db"%string) file db
  = Aborted error
      {| target_file := Some [];
         stdout := lit "Error while connecting to PostgreSQL " ++ error
                   ++ [NEWLINE] |}.
Proof.
  intros H0 H1. unfold main.
  change (source_is (Some "db"%string) "file") with false.
  change (source_is (Some "db"%string) "db") with true. cbv iota.
  rewrite process_second_read_raises with (e := error);
    cbn [read DatabaseInputReader]; rewrite ?H0, ?H1; reflexivity.
Qed.

Lemma database_failure_on_second_read_empties_target_witness :
  let db := fun n => match n with
                     | O => Rows [[lit "Ada"; lit "Lovelace"]]
                     | S _ => DbError (lit "server closed the connection")
                     end in
  db 0%nat = Rows [[lit "Ada"; lit "Lovelace"]] /\
  db 1%nat = DbError (lit "server closed the connection") /\
  target_file
    (final_world
       (main Fragment.ucd (Some "db"%string) (fun _ => FileContent []) db))
  = Some [].
Proof.
  intros db.
  assert (H0 : db 0%nat = Rows [[lit "Ada"; lit "Lovelace"]]) by reflexivity.
  assert (H1 : db 1%nat = DbError (lit "server closed the connection"))
    by reflexivity.
  split; [exact H0 |]. split; [exact H1 |].
  now rewrite (database_failure_on_second_read_empties_target Fragment.ucd
                 (fun _ => FileContent []) db _ _ H0 H1).
Defined.

(** ** The settings of [main] *)

(** X19: started without a configuration file and with the source [db],
    [main] has no connection parameters to give to [psycopg2.connect]:
    whatever the other arguments and whatever the database, the first
    read raises the [TypeError] of the call, the reader prints its
    message, and the run aborts with nothing written. *)
Theorem command_line_database_source_cannot_connect
  (U : Unicode.Database) (TypeError_connect : exn) (args : arguments)
  (config_read : exn + ConfigParser)
  (fs : string -> nat -> file_response)
  (db : connection_parameters -> option string -> nat -> db_response) :
  truthy (args_config args) = false ->
  args_source args = Some "db"%string ->
  main_args U TypeError_connect args config_read fs db
  = Aborted TypeError_connect
      {| target_file := None;
         stdout := lit "Error while connecting to PostgreSQL "
                   ++ TypeError_connect ++ [NEWLINE] |}.
Proof.
  intros Hconfig Hsource. unfold main_args, resolve_settings.
  rewrite Hconfig. cbn [setting_source setting_connection setting_query
                          setting_target setting_input].
  rewrite Hsource.
  change (source_is (Some "db"%string) "file") with false.
  change (source_is (Some "db"%string) "db") with true. cbv iota.
  reflexivity.
Qed.

Lemma command_line_database_source_cannot_connect_witness :
  let args := {| args_source := Some "db"%string;
                 args_input := None;
                 args_target := Some "out.txt"%string;
                 args_query := Some "SELECT name FROM people"%string;
                 args_config := None |} in
  truthy (args_config args) = false /\
  args_source args = Some "db"%string /\
  target_file
    (final_world
       (main_args Fragment.ucd (lit "TypeError") args
          (inr (fun _ _ => Missing (lit "NoSectionError")))
          (fun _ _ => FileContent [])
          (fun _ _ _ => Rows [[lit "Ada"]])))
  = None.
Proof.
  intros args.
  assert (Hconfig : truthy (args_config args) = false) by reflexivity.
  assert (Hsource : args_source args = Some "db"%string) by reflexivity.
  split; [exact Hconfig |]. split; [exact Hsource |].
  now rewrite (command_line_database_source_cannot_connect Fragment.ucd
                 (lit "TypeError") args _ _ _ Hconfig Hsource).
Defined.

Lemma resolved_database_settings (args : arguments) (config : ConfigParser)
  (s : settings) :
  truthy (args_config args) = true ->
  config "settings"%string "source"%string = Found "db" ->
  resolve_settings args (inr config) = inr s ->
  forall name,
    In name ["dbname"; "user"; "password"; "host"; "port"]%string ->
    exists value, config "database"%string name = Found value.
Proof.
  intros Hconfig Hsource. unfold resolve_settings. rewrite Hconfig.
  cbn [bind]. unfold config_get_fallback, config_get. rewrite Hsource.
  cbn [bind].
  destruct (config "settings" "input")%string; cbn [bind];
    try discriminate;
    (destruct (config "settings" "target")%string; cbn [bind];
       try discriminate);
    (destruct (config "settings" "query")%string; cbn [bind];
       try discriminate);
    change (source_is (Some "db"%string) "db") with true; cbv iota;
    (destruct (config "database" "dbname")%string eqn:H1; cbn [bind];
       try discriminate);
    (destruct (config "database" "user")%string eqn:H2; cbn [bind];
       try discriminate);
    (destruct (config "database" "password")%string eqn:H3; cbn [bind];
       try discriminate);
    (destruct (config "database" "host")%string eqn:H4; cbn [bind];
       try discriminate);
    (destruct (config "database" "port")%string eqn:H5; cbn [bind];
       try discriminate);
    intros _ name Hname; cbn [In] in Hname;
    repeat destruct Hname as [<- | Hname]; eauto; destruct Hname.
Qed.

(** X20: with a configuration file that selects the source [db], every
    one of the five options of the section [database] is needed: if one
    of them is not found, the run aborts while the settings are read,
    before any file or database is touched and with nothing printed. *)
Theorem missing_database_option_aborts_before_reading
  (U : Unicode.Database) (TypeError_connect : exn) (args : arguments)
  (config : ConfigParser) (fs : string -> nat -> file_response)
  (db : connection_parameters -> option string -> nat -> db_response)
  (name : string) :
  truthy (args_config args) = true ->
  config "settings"%string "source"%string = Found "db" ->
  In name ["dbname"; "user"; "password"; "host"; "port"]%string ->
  (forall value, config "database"%string name <> Found value) ->
  exists e,
    main_args U TypeError_connect args (inr config) fs db
    = Aborted e initial_world.
Proof.
  intros Hconfig Hsource Hname Hmissing. unfold main_args.
  destruct (resolve_settings args (inr config)) as [e | s] eqn:Hs.
  - now exists e.
  - destruct (resolved_database_settings args config s Hconfig Hsource Hs
                name Hname) as [value Hvalue].
    now elim (Hmissing value).
Qed.

Lemma missing_database_option_aborts_before_reading_witness :
  let args := {| args_source := None; args_input := None;
                 args_target := None; args_query := None;
                 args_config := Some "config.ini"%string |} in
  let config := fun section name : string =>
    if (String.eqb section "settings" && String.eqb name "source")%bool
    then Found "db"
    else if String.eqb name "password"
         then Missing (lit "No option 'password' in section: 'database'")
         else Found "x" in
  truthy (args_config args) = true /\
  config "settings"%string "source"%string = Found "db" /\
  In "password"%string ["dbname"; "user"; "password"; "host"; "port"]%string /\
  (forall value, config "database"%string "password"%string <> Found value) /\
  exists e,
    main_args Fragment.ucd (lit "TypeError") args (inr config)
      (fun _ _ => FileContent []) (fun _ _ _ => Rows [])
    = Aborted e initial_world.
Proof.
  intros args config.
  assert (H1 : truthy (args_config args) = true) by reflexivity.
  assert (H2 : config "settings"%string "source"%string = Found "db")
    by reflexivity.
  assert (H3 : In "password"%string
                 ["dbname"; "user"; "password"; "host"; "port"]%string)
    by (simpl; tauto).
  assert (H4 : forall value,
             config "database"%string "password"%string <> Found value)
    by (intros value; discriminate).
  split; [exact H1 |]. split; [exact H2 |]. split; [exact H3 |].
  split; [exact H4 |].
  exact (missing_database_option_aborts_before_reading Fragment.ucd
           (lit "TypeError") args config _ _ "password"%string H1 H2 H3 H4).
Defined.

(** X21: started without a configuration file, with a file source and
    without a target, [main] reads and counts the whole input first and
    fails only then, when the writer opens the missing path: the run
    aborts with the [TypeError] of [open], nothing is written or printed,
    and the input is not read a second time. *)
Theorem missing_target_fails_after_the_first_pass
  (U : Unicode.Database) (TypeError_connect : exn) (args : arguments)
  (config_read : exn + ConfigParser)
  (fs : string -> nat -> file_response)
  (db : connection_parameters -> option string -> nat -> db_response)
  (path : string) :
  truthy (args_config args) = false ->
  args_source args = Some "file"%string ->
  args_input args = Some path ->
  args_target args = None ->
  raised (MemoryMappedFileInputReader_read default_chunk_size (fs path 0%nat))
  = None ->
  main_args U TypeError_connect args config_read fs db
  = Aborted TypeError_path initial_world.
Proof.
  intros Hconfig Hsource Hinput Htarget Hread.
  unfold main_args, resolve_settings. rewrite Hconfig.
  cbn [setting_source setting_connection setting_query setting_target
         setting_input].
  rewrite Hsource, Hinput, Htarget.
  change (source_is (Some "file"%string) "file") with true. cbv iota.
  unfold process.
  cbn [input_reader read MemoryMappedFileInputReader open_input
         output_writer sanitizer FileOutputWriter_at write].
  now rewrite Hread.
Qed.

Lemma missing_target_fails_after_the_first_pass_witness :
  let args := {| args_source := Some "file"%string;
                 args_input := Some "in.txt"%string;
                 args_target := None; args_query := None;
                 args_config := None |} in
  let fs := fun (_ : string) (_ : nat) => FileContent (lit "Hello") in
  truthy (args_config args) = false /\
  raised (MemoryMappedFileInputReader_read default_chunk_size
            (fs "in.txt"%string 0%nat))
  = None /\
  main_args Fragment.ucd (lit "TypeError") args
    (inl (lit "unused")) fs (fun _ _ _ => Rows [])
  = Aborted TypeError_path initial_world.
Proof.
  intros args fs.
  assert (H1 : truthy (args_config args) = false) by reflexivity.
  assert (H5 : raised (MemoryMappedFileInputReader_read default_chunk_size
                         (fs "in.txt"%string 0%nat)) = None)
    by (vm_compute; reflexivity).
  split; [exact H1 |]. split; [exact H5 |].
  exact (missing_target_fails_after_the_first_pass Fragment.ucd
           (lit "TypeError") args _ fs _ "in.txt"%string
           H1 eq_refl eq_refl eq_refl H5).
Defined.

(** ** Counting and merging commute *)

(** X22: counting two texts and adding the second counter to the first
    gives the counter of the two texts put together, key order
    included: [Counter.update] on counters is what makes the per-chunk
    counting of the pool add up. *)
Theorem Counter_of_concatenation (a b : str) :
  Counter_update (Counter_of a) (Counter_of b) = Counter_of (a ++ b).
Proof.
  rewrite (Counter_update_Counter_of (Counter_of a) b (Counter_of_wf a)).
  unfold Counter_of, Counter_update_iterable.
  symmetry. apply count_elements_app.
Qed.

(** X23: the sequential calculator is additive over its input: the
    statistics of two sequences of chunks, one after the other, are the
    statistics of the first with those of the second added. *)
Theorem calculate_is_additive (U : Unicode.Database)
  (text1 text2 : list str) :
  AlphabetStatisticsCalculator_calculate U (text1 ++ text2)
  = Counter_update (AlphabetStatisticsCalculator_calculate U text1)
      (AlphabetStatisticsCalculator_calculate U text2).
Proof.
  rewrite !calculate_count, map_app, concat_app, count_elements_app.
  symmetry.
  apply (Counter_update_Counter_of
           (count_elements [] _) _ (count_elements_wf [] _ eq_refl)).
Qed.

(** ** Edge cases of the file reader *)

(** X24: the file reader at its edges: an empty file raises the
    [ValueError] of [mmap] whatever the chunk size; on a non-empty file a
    chunk size of zero raises the [ValueError] of [range], and a negative
    chunk size yields no chunk and raises nothing, so that the run
    completes and writes the header alone, as if the file were empty. *)
Theorem file_reader_edge_cases (U : Unicode.Database) (chunk_size : Z)
  (b0 : byte) (rest : bytes) :
  MemoryMappedFileInputReader_read chunk_size (FileContent [])
  = raise ValueError_mmap
  /\ MemoryMappedFileInputReader_read 0 (FileContent (b0 :: rest))
     = raise ValueError_range
  /\ ((chunk_size < 0)%Z ->
      MemoryMappedFileInputReader_read chunk_size (FileContent (b0 :: rest))
      = chunk_source []
      /\ process U
           (text_processor U
              (MemoryMappedFileInputReader chunk_size
                 (fun _ => FileContent (b0 :: rest))))
           initial_world
         = Completed {| target_file := Some statistics_header;
                        stdout := statistics_header |}).
Proof.
  split; [reflexivity |]. split; [reflexivity |].
  intros Hneg.
  assert (H : MemoryMappedFileInputReader_read chunk_size
                (FileContent (b0 :: rest)) = chunk_source []).
  { unfold MemoryMappedFileInputReader_read.
    destruct (Z.eqb_spec chunk_size 0) as [-> | _]; [lia |].
    destruct (Z.ltb_spec chunk_size 0) as [_ | Hpos]; [reflexivity | lia]. }
  split; [exact H |].
  rewrite process_completed;
    cbn [read MemoryMappedFileInputReader]; rewrite ?H; reflexivity.
Qed.
